(** * pySPIRALTAP: a shallow embedding of [pySPIRALTAP.py]

    The development follows the Python source function by function:
    [todo], [computegrad], [computeobjective], [computesubsolution],
    [checkconvergence], [tlv] and the driver [SPIRALTAP], which is cut at
    the section comments of the source into [input_parameters],
    [check_inputs], [method_parameters], [initialize], [main_loop] (with
    [iteration], [compute_solution], [backtracking], [update_alpha]) and
    [post_process].

    Modelling conventions.
    - numpy [float64] arrays are one-dimensional lists of exact rationals
      ([vec]) and every numeric argument is a float; rounding, overflow, the
      special values inf/nan and the integer division of Python 2 on
      all-integer operands are outside the model.
    - a quotient by zero is inf or nan in numpy (and a [ZeroDivisionError]
      between two Python floats).  Where the source only compares such a
      quotient, the comparison is false, and that is what the model
      returns; an inf or nan curvature estimate ([float64]) is cut to
      [alphamax] by the step-size update, as [min] and [max] do; a gradient
      with inf or nan entries is kept ([gradient]) until it is divided;
      everywhere else the run has left the rationals and the model stops
      with the outcome [NonFinite].
    - elementwise operations follow numpy broadcasting for 1-D arrays
      ([broadcast]): equal lengths, or one operand of length one; anything
      else raises [ValueError].
    - exceptions are values of [exn]; every function that can raise returns
      a [result].  The two [while] loops are run on fuel; [OutOfFuel] is the
      outcome of a run that needs more rounds than the fuel allows.
    - [np.log], [np.sqrt] and the wall clock are parameters of the model
      ([Qlog], [Qsqrt], [toc]); printing is not modelled. *)

From Stdlib Require Import ZArith QArith Qabs Qminmax Qround Qpower.
From Stdlib Require Import String Ascii List Bool Lia Lqa.
Import ListNotations.

Local Open Scope Q_scope.

Set Default Proof Using "Type".

(** ** Exceptions and the error monad *)

Inductive exn : Set :=
| AttributeError
| TypeError
| ValueError
| IndexError
| NameError
| UnboundLocalError
| NotImplementedError.

(** The outcome of a call: a value, an exception, a loop that used up its
    fuel, or a quotient by zero whose value the run goes on to use. *)
Inductive result (T : Type) : Type :=
| Ok (v : T)
| Raise (e : exn)
| OutOfFuel
| NonFinite.

Arguments Ok {T} v.
Arguments Raise {T} e.
Arguments OutOfFuel {T}.
Arguments NonFinite {T}.

Definition bind {T U : Type} (m : result T) (k : T -> result U) : result U :=
  match m with
  | Ok v => k v
  | Raise e => Raise e
  | OutOfFuel => OutOfFuel
  | NonFinite => NonFinite
  end.

Notation "x <- m ;; k" := (bind m (fun x => k))
  (at level 61, m at next level, right associativity).

(** A computation finishes when its fuel suffices: it returns, raises, or
    stops at a quotient by zero. *)
Definition finishes {T : Type} (m : result T) : Prop := m <> OutOfFuel.

(** [try: ... except: raise e]. *)
Definition reraise {T : Type} (e : exn) (m : result T) : result T :=
  match m with
  | Ok v => Ok v
  | Raise _ => Raise e
  | OutOfFuel => OutOfFuel
  | NonFinite => NonFinite
  end.

(** Reading a local name that may not have been assigned yet. *)
Definition bound {T : Type} (o : option T) : result T :=
  match o with
  | Some v => Ok v
  | None => Raise UnboundLocalError
  end.

(** [v != []] for an optional argument whose default is the empty list. *)
Definition given {T : Type} (o : option T) : bool :=
  match o with
  | Some _ => true
  | None => false
  end.

(** ** Python strings and objects *)

Inductive python : Set := Py2 | Py3.

Definition lower_ascii (c : ascii) : ascii :=
  let n := nat_of_ascii c in
  if ((65 <=? n) && (n <=? 90))%nat then ascii_of_nat (n + 32) else c.

Fixpoint lower (s : string) : string :=
  match s with
  | EmptyString => EmptyString
  | String c s' => String (lower_ascii c) (lower s')
  end.

(** The objects that the penalty dispatch of [computeobjective] compares:
    a string, or the bound method obtained by reading the attribute [lower]
    of a string without calling it. *)
Inductive pyobj : Set :=
| PyStr (s : string)
| PyBoundMethod (self : string) (name : string).

(** [a == b] on these objects: a bound method is never equal to a string. *)
Definition py_eq (a b : pyobj) : bool :=
  match a, b with
  | PyStr s, PyStr t => String.eqb s t
  | PyBoundMethod s n, PyBoundMethod t m => String.eqb s t && String.eqb n m
  | _, _ => false
  end.

(** [s.lower] (the attribute) and [s.lower()] (the call). *)
Definition attr_lower (s : string) : pyobj := PyBoundMethod s "lower".
Definition call_lower (s : string) : pyobj := PyStr (lower s).

(** [d.has_key(k)]: a method of Python 2 dictionaries only. *)
Definition has_key {V : Type} (version : python) (d : list (string * V))
    (k : string) : result bool :=
  match version with
  | Py2 => Ok (existsb (fun kv => String.eqb (fst kv) k) d)
  | Py3 => Raise AttributeError
  end.

(** ** Arrays *)

Definition vec : Type := list Q.

Definition Qltb (a b : Q) : bool := negb (Qle_bool b a).

Fixpoint map2 (f : Q -> Q -> Q) (a b : vec) : vec :=
  match a, b with
  | u :: a', v :: b' => f u v :: map2 f a' b'
  | _, _ => []
  end.

Definition broadcast (f : Q -> Q -> Q) (a b : vec) : result vec :=
  if Nat.eqb (length a) (length b) then Ok (map2 f a b)
  else match a, b with
       | [u], _ => Ok (map (f u) b)
       | _, [v] => Ok (map (fun u => f u v) a)
       | _, _ => Raise ValueError
       end.

(** [a / b] on arrays: the shapes are checked first; a zero divisor that
    meets an entry produces inf or nan. *)
Definition nonzero (q : Q) : bool := negb (Qeq_bool q 0).

Definition empty (v : vec) : bool :=
  match v with
  | [] => true
  | _ => false
  end.

Definition divide (a b : vec) : result vec :=
  r <- broadcast Qdiv a b ;;
  if empty r || forallb nonzero b then Ok r else NonFinite.

(** [v.sum()] *)
Definition vsum (v : vec) : Q := fold_right Qplus 0 v.

Definition sq (q : Q) : Q := q ^ 2.

(** [v.max()] and [v.min()]: [ValueError] on an empty array. *)
Definition vmax (v : vec) : result Q :=
  match v with
  | [] => Raise ValueError
  | h :: t => Ok (fold_left (fun m q => if Qltb m q then q else m) t h)
  end.

Definition vmin (v : vec) : result Q :=
  match v with
  | [] => Raise ValueError
  | h :: t => Ok (fold_left (fun m q => if Qltb q m then q else m) t h)
  end.

(** [np.zeros(n)] *)
Definition zeros (n : Z) : result vec :=
  if (n <? 0)%Z then Raise ValueError else Ok (repeat 0 (Z.to_nat n)).

(** Python index resolution on a sequence of length [n]: negative indices
    count from the end. *)
Definition index (n : nat) (i : Z) : option nat :=
  let len := Z.of_nat n in
  if ((0 <=? i) && (i <? len))%Z then Some (Z.to_nat i)
  else if ((- len <=? i) && (i <? 0))%Z then Some (Z.to_nat (len + i))
  else None.

Fixpoint update (k : nat) (q : Q) (v : vec) : vec :=
  match v, k with
  | [], _ => []
  | _ :: t, O => q :: t
  | h :: t, S k' => h :: update k' q t
  end.

(** [v[i]] *)
Definition getitem (v : vec) (i : Z) : result Q :=
  match index (length v) i with
  | Some k => Ok (nth k v 0)
  | None => Raise IndexError
  end.

(** [v[i] = q] *)
Definition setitem (v : vec) (i : Z) (q : Q) : result vec :=
  match index (length v) i with
  | Some k => Ok (update k q v)
  | None => Raise IndexError
  end.

(** [v[0:stop]] *)
Definition slice0 (v : vec) (stop : Z) : vec :=
  let len := Z.of_nat (length v) in
  let stop' := if (stop <? 0)%Z then Z.max (stop + len) 0 else Z.min stop len in
  firstn (Z.to_nat stop') v.

(** [np.arange(a, b)] on integers. *)
Definition arange (a b : Z) : list Z :=
  map (fun k => (a + Z.of_nat k)%Z) (seq 0 (Z.to_nat (b - a))).

(** [v[idx]] with an integer index array. *)
Fixpoint take (v : vec) (idx : list Z) : result vec :=
  match idx with
  | [] => Ok []
  | i :: idx' => q <- getitem v i ;; r <- take v idx' ;; Ok (q :: r)
  end.

(** [q.round()]: to the nearest integer, ties to the even one. *)
Definition Qround_even (q : Q) : Q :=
  let f := Qfloor q in
  let r := q - inject_Z f in
  if Qltb r (1 # 2) then inject_Z f
  else if Qltb (1 # 2) r then inject_Z (f + 1)
  else if Z.even f then inject_Z f else inject_Z (f + 1).

(** The builtin [max(a, b)] and [min(a, b)] of Python on two arguments: the
    first argument is kept unless the second is strictly better. *)
Definition py_max (a b : Q) : Q := if Qltb a b then b else a.
Definition py_min (a b : Q) : Q := if Qltb b a then b else a.

(** A regularisation weight is a scalar or an array. *)
Inductive operand : Type :=
| Scalar (t : Q)
| Array (t : vec).

(** [tau / alpha] *)
Definition operand_div (tau : operand) (alpha : Q) : operand :=
  match tau with
  | Scalar t => Scalar (t / alpha)
  | Array t => Array (map (fun q => q / alpha) t)
  end.

(** [v - w] and [w * v] for an array [v] and an operand [w]. *)
Definition vec_sub (v : vec) (w : operand) : result vec :=
  match w with
  | Scalar t => Ok (map (fun q => q - t) v)
  | Array t => broadcast Qminus v t
  end.

Definition operand_mul (w : operand) (v : vec) : result vec :=
  match w with
  | Scalar t => Ok (map (fun q => t * q) v)
  | Array t => broadcast Qmult t v
  end.

(** ** Error and helper functions *)

Definition todo {T : Type} : result T := Raise NotImplementedError.

(** ** Data of the driver *)

(** The arguments of [SPIRALTAP].  [A] is taken in its callable form (a
    matrix is turned into a callable by the source before use) and [AT] is
    [None] when the caller leaves the default [[]].  [truth] and
    [initialization] are [None] for the default [[]]; [computereconerror] is
    [None] for the default [False], which is not callable.  The parameters
    [warnings], [sqrty], [W], [substopcriterion] are never read before being
    overwritten and are left out. *)
Module Args.
Record t : Type := mk {
  y : vec;
  A : vec -> vec;
  tau : operand;
  verbose : Z;
  converged : bool;
  itern : Z;
  AT : option (vec -> vec);
  truth : option vec;
  initialization : option vec;
  recenter : bool;
  mu : Q;
  noisetype : string;
  logepsilon : Q;
  penalty : string;
  WT : vec -> vec;
  subminiter : Z;
  submaxiter : Z;
  subtolerance : Q;
  alphamethod : Z;
  monotone : bool;
  alphainit : Q;
  alphamin : Q;
  alphamax : Q;
  acceptdecrease : Q;
  acceptpast : Z;
  acceptmult : Q;
  stopcriterion : Z;
  miniter : Z;
  maxiter : Z;
  tolerance : Q;
  saveobjective : bool;
  computereconerror : option (vec -> Q);
  reconerrortype : Z;
  savecputime : bool;
  savesolutionpath : bool;
  savereconerror : bool;
  kwargs : list (string * Q)
}.
End Args.

(** The returned dictionary [varargout]. *)
Module Out.
Record t : Type := mk {
  iterations : Z;
  objective : option vec;
  reconerror : option vec;
  cputime : option vec
}.
End Out.

(** The gradient as the driver keeps it between two uses: what
    [computegrad] returned ([None] when it fell through), or an array with
    inf or nan entries, which do no harm until the gradient is divided. *)
Inductive gradient : Type :=
| Grad (g : option vec)
| GradInfNan.

Definition keep (m : result (option vec)) : result gradient :=
  match m with
  | Ok g => Ok (Grad g)
  | NonFinite => Ok GradInfNan
  | Raise e => Raise e
  | OutOfFuel => OutOfFuel
  end.

(** The local variables of [SPIRALTAP] that live across iterations of the
    main loop. *)
Module St.
Record t : Type := mk {
  x : vec;
  Ax : vec;
  xprevious : vec;
  Axprevious : vec;
  grad : gradient;
  alpha : Q;
  itern : Z;
  converged : bool;
  objective : vec;
  cputime : vec;
  reconerror : option vec
}.
End St.

(** What the "Compute solution" part of an iteration leaves behind.  [dx],
    [Adx] and [normsqdx] are locals that a branch may leave unassigned. *)
Module Sol.
Record t : Type := mk {
  x : vec;
  Ax : vec;
  dx : option vec;
  Adx : option vec;
  normsqdx : option Q;
  alpha : Q;
  objective : vec
}.
End Sol.

Section Program.

(** [np.log] and [np.sqrt] on scalars, and the elapsed time [time.time()-tic]
    read in iteration [itern]. *)
Variable Qlog : Q -> Q.
Variable Qsqrt : Q -> Q.
Variable toc : Z -> Q.

(** [computegrad]; the last branch prints and falls off the end of the
    function, which returns [None]. *)
Definition computegrad (y Ax : vec) (AT : vec -> vec) (noisetype : string)
    (logepsilon : Q) : result (option vec) :=
  if String.eqb (lower noisetype) "poisson" then
    r <- divide y (map (fun a => a + logepsilon) Ax) ;;
    Ok (Some (AT (map (fun q => 1 - q) r)))
  else if String.eqb (lower noisetype) "gaussian" then
    d <- broadcast Qminus Ax y ;;
    Ok (Some (AT d))
  else Ok None.

(** [tlv]: [(m,n)=X.shape] needs a two-dimensional array; on the
    one-dimensional arrays of this model the unpacking raises. *)
Definition tlv (X : vec) (typ : string) : result Q := Raise ValueError.

(** [tlv] on an image: a two-dimensional array given by its rows, all of
    the same length.  [P1] holds the differences of vertically adjacent
    pixels, [P2] those of horizontally adjacent ones.  An empty list has a
    one-dimensional shape, so unpacking it raises; the last branch raises
    the undefined name [InputError]. *)
Definition rows_sub (X Y : list vec) : list vec :=
  map (fun p => map2 Qminus (fst p) (snd p)) (combine X Y).

Definition tlv_image (X : list vec) (typ : string) : result Q :=
  match X with
  | [] => Raise ValueError
  | row0 :: _ =>
      let n := length row0 in
      let P1 := rows_sub (removelast X) (tl X) in
      let P2 := map (fun row => map2 Qminus (removelast row) (tl row)) X in
      if String.eqb typ "iso" then
        let D := map (map sq) P1 ++ [repeat 0 n] in
        let D := map (fun p => map2 Qplus (firstn (n - 1) (fst p))
                                 (map sq (snd p))
                               ++ skipn (n - 1) (fst p))
                   (combine D P2) in
        Ok (vsum (map (fun row => vsum (map Qsqrt row)) D))
      else if String.eqb typ "l1" then
        Ok (vsum (map (fun row => vsum (map Qabs row)) P1)
            + vsum (map (fun row => vsum (map Qabs row)) P2))
      else Raise NameError
  end.

(** [computeobjective].  The local [objective] is unbound when [noisetype]
    is neither name.  The penalty dispatch compares the attribute
    [penalty.lower] itself, as the source does. *)
Definition computeobjective (x y Ax : vec) (tau : operand) (noisetype : string)
    (logepsilon : Q) (penalty : string) (WT : vec -> vec) : result Q :=
  (* (1) Compute log-likelihood *)
  objective <-
    (if String.eqb (lower noisetype) "poisson" then
       precompute <- broadcast Qmult y (map (fun a => Qlog (a + logepsilon)) Ax) ;;
       Ok (Some (vsum Ax - vsum precompute))
     else if String.eqb (lower noisetype) "gaussian" then
       d <- broadcast Qminus y Ax ;;
       Ok (Some (vsum (map sq d) / 2))
     else Ok None) ;;
  (* (2) Compute penalty *)
  objective <-
    (if py_eq (attr_lower penalty) (PyStr "canonical") then
       o <- bound objective ;;
       p <- operand_mul tau x ;;
       Ok (Some (o + vsum (map Qabs p)))
     else if py_eq (attr_lower penalty) (PyStr "onb") then
       o <- bound objective ;;
       p <- operand_mul tau (WT x) ;;
       Ok (Some (o + vsum (map Qabs p)))
     else if py_eq (attr_lower penalty) (PyStr "rdp") then todo
     else if py_eq (attr_lower penalty) (PyStr "rdp-ti") then todo
     else if py_eq (attr_lower penalty) (PyStr "tv") then
       o <- bound objective ;;
       t <- tlv x "l1" ;;
       match tau with
       | Scalar s => Ok (Some (o + s * t))
       | Array _ => Raise ValueError (* never reached: [tlv] has raised *)
       end
     else Ok objective) ;;
  bound objective.

(** [computesubsolution]: the denoising subproblem.  [out[out<0]=0] is the
    masked assignment.  [tau/alpha] with [alpha == 0] raises
    [ZeroDivisionError] between Python floats and gives inf or nan with
    numpy operands; the model does not tell the two apart and stops. *)
Definition computesubsolution (step : vec) (tau : operand) (alpha : Q)
    (penalty : string) (mu : Q) : result vec :=
  if String.eqb (lower penalty) "canonical" then
    if Qeq_bool alpha 0 then NonFinite else
    out <- vec_sub step (operand_div tau alpha) ;;
    let out := map (fun q => q + mu) out in
    Ok (map (fun q => if Qltb q 0 then 0 else q) out)
  else todo.

(** [checkconvergence]; the criteria 3 and 4 compare a quotient with the
    tolerance. *)
Definition checkconvergence (itern miniter stopcriterion : Z) (tolerance : Q)
    (dx x : vec) (cputime : Q) (objective : vec) : result bool :=
  if (miniter <=? itern)%Z then
    if (stopcriterion =? 1)%Z then Ok false
    else if (stopcriterion =? 2)%Z then Ok (Qle_bool tolerance cputime)
    else if (stopcriterion =? 3)%Z then
      (* a quotient by zero is inf or nan, and [inf <= t], [nan <= t] are
         false *)
      if Qeq_bool ((vsum x) ^ 2) 0 then Ok false
      else Ok (Qle_bool ((vsum dx) ^ 2 / (vsum x) ^ 2) (tolerance ^ 2))
    else if (stopcriterion =? 4)%Z then
      oi <- getitem objective itern ;;
      oj <- getitem objective (itern - 1) ;;
      oj' <- getitem objective (itern - 1) ;;
      if Qeq_bool (Qabs oj') 0 then Ok false
      else Ok (Qle_bool (Qabs (oi - oj) / Qabs oj') tolerance)
    else if (stopcriterion =? 5)%Z then todo
    else if (stopcriterion =? 6)%Z then todo
    else Ok false
  else Ok false.

(** ** The driver *)

(** [## ==== Input parameters]: the name [acceptalphamax] is bound only when
    the keyword is absent from [kwargs]. *)
Definition input_parameters (version : python) (a : Args.t) : result (option Q) :=
  k <- has_key version a.(Args.kwargs) "acceptalphamax" ;;
  if negb k then Ok (Some a.(Args.alphamax)) else Ok None.

(** [## ==== Check the validity of the inputs]; returns the adjoint. *)
Definition check_inputs (a : Args.t) : result (vec -> vec) :=
  let noise := lower a.(Args.noisetype) in
  let pen := lower a.(Args.penalty) in
  if negb (String.eqb noise "poisson" || String.eqb noise "gaussian")
  then Raise TypeError
  else if negb (String.eqb pen "canonical" || String.eqb pen "onb"
                || String.eqb pen "rdp" || String.eqb pen "rdp-ti"
                || String.eqb pen "tv")
  then Raise TypeError
  else if (a.(Args.verbose) <? 0)%Z then Raise TypeError
  else if Qltb a.(Args.logepsilon) 0 then Raise TypeError
  else if Qltb a.(Args.tolerance) 0 then Raise TypeError
  else if Qltb a.(Args.subtolerance) 0 then Raise TypeError
  else if ((a.(Args.miniter) <=? 0) || (a.(Args.maxiter) <=? 0))%Z
  then Raise TypeError
  else if (a.(Args.maxiter) <? a.(Args.miniter))%Z then Raise TypeError
  else if (a.(Args.submaxiter) <? a.(Args.subminiter))%Z
  then Raise NameError (* the message formats the undefined [subbmaxiter] *)
  else
    AT <- match a.(Args.AT) with
          | None => Raise TypeError
          | Some AT =>
              _ <- reraise TypeError
                     (broadcast Qplus a.(Args.y) (a.(Args.A) (AT a.(Args.y)))) ;;
              Ok AT
          end ;;
    _ <- match a.(Args.truth) with
         | None => Ok tt
         | Some truth =>
             _ <- reraise TypeError (broadcast Qplus truth (AT a.(Args.y))) ;;
             m <- vmin truth ;;
             if Qltb m 0 then Raise ValueError else Ok tt
         end ;;
    if (a.(Args.savesolutionpath) && negb (given a.(Args.truth)))
       || (a.(Args.savereconerror) && negb (given a.(Args.truth)))
    then Raise TypeError
    else Ok AT.

(** [## ==== Initialize method-dependent parameters]; returns [sqrty]. *)
Definition method_parameters (a : Args.t) : result vec :=
  sqrty <-
    (if String.eqb (lower a.(Args.noisetype)) "poisson" then
       let changed := existsb (fun q => negb (Qeq_bool (Qround_even q) q)) a.(Args.y) in
       bad <- (if changed then Ok true else m <- vmin a.(Args.y) ;; Ok (Qltb m 0)) ;;
       if (bad : bool) then Raise ValueError
       else if a.(Args.recenter) then todo
       else Ok (map Qsqrt a.(Args.y))
     else Ok []) ;;
  let pen := lower a.(Args.penalty) in
  if String.eqb pen "canonical" then Ok sqrty
  else if String.eqb pen "onb" || String.eqb pen "rdp" || String.eqb pen "rdp-ti"
  then todo
  else if String.eqb pen "tv" then
    match a.(Args.tau) with
    | Scalar _ => Ok sqrty
    | Array _ => Raise TypeError
    end
  else Ok sqrty.

(** The closure [computereconerror] installed when [savereconerror] holds. *)
Definition computereconerror (a : Args.t) (x : vec) : result Q :=
  truth <- match a.(Args.truth) with Some t => Ok t | None => Raise TypeError end ;;
  if (a.(Args.reconerrortype) =? 0)%Z then
    let normtrue := Qsqrt (vsum (map sq truth)) in
    d <- broadcast Qminus (map (fun q => q + a.(Args.mu)) x) truth ;;
    if Qeq_bool normtrue 0 then NonFinite
    else Ok (Qsqrt (vsum (map sq d)) / normtrue)
  else if (a.(Args.reconerrortype) =? 1)%Z then
    let normtrue := vsum (map Qabs truth) in
    d <- broadcast Qminus (map (fun q => q + a.(Args.mu)) x) truth ;;
    if Qeq_bool normtrue 0 then NonFinite
    else Ok (vsum (map Qabs d) / normtrue)
  else match a.(Args.computereconerror) with
       | Some f => Ok (f x)
       | None => Raise TypeError
       end.

(** From [## ==== check that initialization ...] up to the beginning of the
    main loop. *)
Definition initialize (a : Args.t) (AT : vec -> vec) : result St.t :=
  let xinit := match a.(Args.initialization) with
               | None => AT a.(Args.y)
               | Some v => v
               end in
  if a.(Args.recenter) then Raise NameError (* [meanAones] is not defined *)
  else
    let x := xinit in
    let Ax := a.(Args.A) x in
    grad <- keep (computegrad a.(Args.y) Ax AT a.(Args.noisetype)
                    a.(Args.logepsilon)) ;;
    cputime <- zeros (a.(Args.maxiter) + 1) ;;
    objective <- zeros (a.(Args.maxiter) + 1) ;;
    objective <-
      (if a.(Args.saveobjective) then
         o <- computeobjective x a.(Args.y) Ax a.(Args.tau) a.(Args.noisetype)
                a.(Args.logepsilon) a.(Args.penalty) a.(Args.WT) ;;
         setitem objective (a.(Args.itern) - 1) o
       else Ok objective) ;;
    reconerror <-
      (if a.(Args.savereconerror) then
         reconerror <- zeros (a.(Args.maxiter) + 1) ;;
         e <- computereconerror a xinit ;;
         r <- setitem reconerror (a.(Args.itern) - 1) e ;;
         Ok (Some r)
       else Ok None) ;;
    Ok {| St.x := x; St.Ax := Ax; St.xprevious := x; St.Axprevious := Ax;
          St.grad := grad; St.alpha := a.(Args.alphainit);
          St.itern := a.(Args.itern); St.converged := a.(Args.converged);
          St.objective := objective; St.cputime := cputime;
          St.reconerror := reconerror |}.

(** [grad/alpha]: [grad] is [None] when [computegrad] fell through. *)
Definition grad_div (grad : gradient) (alpha : Q) : result vec :=
  match grad with
  | Grad (Some []) => Ok []
  | Grad (Some g) => if Qeq_bool alpha 0 then NonFinite
                     else Ok (map (fun q => q / alpha) g)
  | Grad None => Raise TypeError
  | GradInfNan => NonFinite
  end.

(** The acceptance test of the monotone Barzilai-Borwein branch; the second
    disjunct is evaluated, and the name [acceptalphamax] read, only when the
    first one is false. *)
Definition accepted (a : Args.t) (acceptalphamax : option Q) (candidate
    maxpastobjective alpha normsqdx : Q) : result bool :=
  if Qle_bool candidate
       (maxpastobjective - a.(Args.acceptdecrease) * alpha / 2 * normsqdx)
  then Ok true
  else am <- bound acceptalphamax ;; Ok (Qle_bool am alpha).

(** [past = np.arange(max(itern-1-acceptpast,0),itern)] and
    [maxpastobjective = objective[past].max()]. *)
Definition past (itern acceptpast : Z) : list Z :=
  arange (Z.max (itern - 1 - acceptpast) 0) itern.

Definition maxpast (objective : vec) (itern acceptpast : Z) : result Q :=
  w <- take objective (past itern acceptpast) ;;
  vmax w.

(** One pass through the body of [while accept==0], started with step size
    [alpha] and trace [objective]; returns [accept] and the locals. *)
Definition backtracking_round (a : Args.t) (acceptalphamax : option Q)
    (s : St.t) (maxpastobjective alpha : Q) (objective : vec)
    : result (bool * Sol.t) :=
  g <- grad_div s.(St.grad) alpha ;;
  step <- broadcast Qminus s.(St.xprevious) g ;;
  x <- computesubsolution step a.(Args.tau) alpha a.(Args.penalty) a.(Args.mu) ;;
  dx <- broadcast Qminus x s.(St.xprevious) ;;
  let Ax := a.(Args.A) x in
  Adx <- broadcast Qminus Ax s.(St.Axprevious) ;;
  let normsqdx := vsum (map sq dx) in
  o <- computeobjective x a.(Args.y) Ax a.(Args.tau) a.(Args.noisetype)
         a.(Args.logepsilon) a.(Args.penalty) a.(Args.WT) ;;
  objective <- setitem objective s.(St.itern) o ;;
  candidate <- getitem objective s.(St.itern) ;;
  accept <- accepted a acceptalphamax candidate maxpastobjective alpha normsqdx ;;
  Ok (accept,
      {| Sol.x := x; Sol.Ax := Ax; Sol.dx := Some dx; Sol.Adx := Some Adx;
         Sol.normsqdx := Some normsqdx;
         Sol.alpha := a.(Args.acceptmult) * alpha;
         Sol.objective := objective |}).

(** [while accept==0] *)
Fixpoint backtracking (fuel : nat) (a : Args.t) (acceptalphamax : option Q)
    (s : St.t) (maxpastobjective alpha : Q) (objective : vec) : result Sol.t :=
  match fuel with
  | O => OutOfFuel
  | S fuel' =>
      r <- backtracking_round a acceptalphamax s maxpastobjective alpha objective ;;
      if fst r then Ok (snd r)
      else backtracking fuel' a acceptalphamax s maxpastobjective
             (snd r).(Sol.alpha) (snd r).(Sol.objective)
  end.

(** [## ==== Compute solution] *)
Definition compute_solution (fuel : nat) (a : Args.t) (acceptalphamax : option Q)
    (s : St.t) : result Sol.t :=
  if (a.(Args.alphamethod) =? 0)%Z then
    g <- grad_div s.(St.grad) s.(St.alpha) ;;
    step <- broadcast Qminus s.(St.xprevious) g ;;
    x <- computesubsolution step a.(Args.tau) s.(St.alpha) a.(Args.penalty)
           a.(Args.mu) ;;
    dx <- broadcast Qminus x s.(St.xprevious) ;;
    Ok {| Sol.x := x; Sol.Ax := a.(Args.A) x; Sol.dx := Some dx;
          Sol.Adx := None; Sol.normsqdx := None;
          Sol.alpha := s.(St.alpha); Sol.objective := s.(St.objective) |}
  else if (a.(Args.alphamethod) =? 1)%Z then
    if a.(Args.monotone) then
      maxpastobjective <- maxpast s.(St.objective) s.(St.itern) a.(Args.acceptpast) ;;
      backtracking fuel a acceptalphamax s maxpastobjective s.(St.alpha)
        s.(St.objective)
    else
      g <- grad_div s.(St.grad) s.(St.alpha) ;;
      step <- broadcast Qminus s.(St.xprevious) g ;;
      x <- computesubsolution step a.(Args.tau) s.(St.alpha) a.(Args.penalty)
             a.(Args.mu) ;;
      dx <- broadcast Qminus x s.(St.xprevious) ;;
      let Ax := a.(Args.A) x in
      Adx <- broadcast Qminus Ax s.(St.Axprevious) ;;
      let normsqdx := vsum (map sq dx) in
      objective <-
        (if a.(Args.saveobjective) then
           o <- computeobjective x a.(Args.y) Ax a.(Args.tau) a.(Args.noisetype)
                  a.(Args.logepsilon) a.(Args.penalty) a.(Args.WT) ;;
           setitem s.(St.objective) s.(St.itern) o
         else Ok s.(St.objective)) ;;
      Ok {| Sol.x := x; Sol.Ax := Ax; Sol.dx := Some dx; Sol.Adx := Some Adx;
            Sol.normsqdx := Some normsqdx;
            Sol.alpha := s.(St.alpha); Sol.objective := objective |}
  else
    Ok {| Sol.x := s.(St.x); Sol.Ax := s.(St.Ax); Sol.dx := None;
          Sol.Adx := None; Sol.normsqdx := None;
          Sol.alpha := s.(St.alpha); Sol.objective := s.(St.objective) |}.

(** A [float64] scalar: a rational, or one of inf and nan. *)
Inductive float64 : Type :=
| Finite (q : Q)
| InfNan.

(** The curvature estimate [gamma] of the Barzilai-Borwein update.  For
    Poisson noise a zero in [Ax + logepsilon] that meets an entry makes that
    entry, its square and the sum inf or nan. *)
Definition bb_gamma (a : Args.t) (sqrty Adx Ax : vec) : result float64 :=
  if String.eqb (lower a.(Args.noisetype)) "poisson" then
    n <- broadcast Qmult Adx sqrty ;;
    match divide n (map (fun q => q + a.(Args.logepsilon)) Ax) with
    | Ok Adx => Ok (Finite (vsum (map sq Adx)))
    | NonFinite => Ok InfNan
    | Raise e => Raise e
    | OutOfFuel => OutOfFuel
    end
  else Ok (Finite (vsum (map sq Adx))).

(** [## Update alpha].  An inf or nan [gamma] differs from 0, stays inf or
    nan in [gamma/normsqdx], is kept by [max(alpha, alphamin)] (no number
    is greater) and dropped by [min(alphamax, .)] (it is not less than
    [alphamax]); so is the inf of a finite [gamma] over [normsqdx == 0]. *)
Definition update_alpha (a : Args.t) (sqrty : vec) (sol : Sol.t) : result Q :=
  if (a.(Args.alphamethod) =? 0)%Z then Ok sol.(Sol.alpha)
  else if (a.(Args.alphamethod) =? 1)%Z then
    Adx <- bound sol.(Sol.Adx) ;;
    gamma <- bb_gamma a sqrty Adx sol.(Sol.Ax) ;;
    match gamma with
    | Finite gamma =>
        if Qeq_bool gamma 0 then Ok a.(Args.alphamin)
        else
          normsqdx <- bound sol.(Sol.normsqdx) ;;
          if Qeq_bool normsqdx 0 then Ok a.(Args.alphamax)
          else
            let alpha := gamma / normsqdx in
            Ok (py_min a.(Args.alphamax) (py_max alpha a.(Args.alphamin)))
    | InfNan =>
        normsqdx <- bound sol.(Sol.normsqdx) ;;
        Ok a.(Args.alphamax)
    end
  else Ok sol.(Sol.alpha).

(** The body of the main loop. *)
Definition iteration (fuel : nat) (a : Args.t) (AT : vec -> vec)
    (acceptalphamax : option Q) (sqrty : vec) (s : St.t) : result St.t :=
  sol <- compute_solution fuel a acceptalphamax s ;;
  let itern := s.(St.itern) in
  (* Calculate output quantities *)
  cputime <-
    (if a.(Args.savecputime) then setitem s.(St.cputime) itern (toc itern)
     else Ok s.(St.cputime)) ;;
  reconerror <-
    (if a.(Args.savereconerror) then
       e <- computereconerror a sol.(Sol.x) ;;
       r <- bound s.(St.reconerror) ;;
       r <- setitem r itern e ;;
       Ok (Some r)
     else Ok s.(St.reconerror)) ;;
  _ <- (if a.(Args.savesolutionpath) then Raise NameError else Ok tt) ;;
  (* Needed for next iteration and also termination criteria *)
  grad <- keep (computegrad a.(Args.y) sol.(Sol.Ax) AT a.(Args.noisetype)
                  a.(Args.logepsilon)) ;;
  dx <- bound sol.(Sol.dx) ;;
  now <- getitem cputime itern ;;
  converged <- checkconvergence itern a.(Args.miniter) a.(Args.stopcriterion)
                 a.(Args.tolerance) dx sol.(Sol.x) now sol.(Sol.objective) ;;
  (* Prepare for next iteration *)
  alpha <- update_alpha a sqrty sol ;;
  Ok {| St.x := sol.(Sol.x); St.Ax := sol.(Sol.Ax);
        St.xprevious := sol.(Sol.x); St.Axprevious := sol.(Sol.Ax);
        St.grad := grad; St.alpha := alpha; St.itern := (itern + 1)%Z;
        St.converged := converged; St.objective := sol.(Sol.objective);
        St.cputime := cputime; St.reconerror := reconerror |}.

(** The guard of the main loop. *)
Definition guard (a : Args.t) (s : St.t) : bool :=
  (s.(St.itern) <=? a.(Args.miniter))%Z
  || ((s.(St.itern) <=? a.(Args.maxiter))%Z && negb s.(St.converged)).

(** [while (itern <= miniter) or ((itern <= maxiter) and not converged)] *)
Fixpoint main_loop (fuel rounds : nat) (a : Args.t) (AT : vec -> vec)
    (acceptalphamax : option Q) (sqrty : vec) (s : St.t) : result St.t :=
  if guard a s then
    match fuel with
    | O => OutOfFuel
    | S fuel' =>
        s' <- iteration rounds a AT acceptalphamax sqrty s ;;
        main_loop fuel' rounds a AT acceptalphamax sqrty s'
    end
  else Ok s.

(** [reaches a AT am sqrty rounds s s']: the main loop started in [s]
    passes through [s'] at the top of an iteration. *)
Inductive reaches (rounds : nat) (a : Args.t) (AT : vec -> vec)
    (am : option Q) (sqrty : vec) : St.t -> St.t -> Prop :=
| reaches_here (s : St.t) : reaches rounds a AT am sqrty s s
| reaches_next (s s' s'' : St.t) :
    guard a s = true ->
    iteration rounds a AT am sqrty s = Ok s' ->
    reaches rounds a AT am sqrty s' s'' ->
    reaches rounds a AT am sqrty s s''.

(** [## ==== Post process the output] *)
Definition post_process (a : Args.t) (s : St.t) : result (vec * Out.t) :=
  let x := map (fun q => q + a.(Args.mu)) s.(St.x) in
  let itern := (s.(St.itern) - 1)%Z in
  let objective :=
    if a.(Args.saveobjective) then Some (slice0 s.(St.objective) itern)
    else None in
  reconerror <-
    (if a.(Args.savereconerror) then
       r <- bound s.(St.reconerror) ;; Ok (Some (slice0 r itern))
     else Ok None) ;;
  let cputime :=
    if a.(Args.savecputime) then Some (slice0 s.(St.cputime) itern)
    else None in
  _ <- (if a.(Args.savesolutionpath) then Raise NameError else Ok tt) ;;
  Ok (x, {| Out.iterations := itern; Out.objective := objective;
            Out.reconerror := reconerror; Out.cputime := cputime |}).

(** [SPIRALTAP]; [fuel] bounds the iterations of the main loop and the
    backtracking rounds of each iteration. *)
Definition SPIRALTAP (version : python) (fuel : nat) (a : Args.t)
    : result (vec * Out.t) :=
  acceptalphamax <- input_parameters version a ;;
  AT <- check_inputs a ;;
  sqrty <- method_parameters a ;;
  s <- initialize a AT ;;
  s <- main_loop fuel fuel a AT acceptalphamax sqrty s ;;
  post_process a s.

End Program.

(** The default values of the keyword parameters of [SPIRALTAP]. *)
Definition defaults (y : vec) (A : vec -> vec) (tau : operand) : Args.t :=
  {| Args.y := y; Args.A := A; Args.tau := tau;
     Args.verbose := 0; Args.converged := false; Args.itern := 1;
     Args.AT := None; Args.truth := None; Args.initialization := None;
     Args.recenter := false; Args.mu := 0;
     Args.noisetype := "Poisson"; Args.logepsilon := 1 # (10 ^ 10);
     Args.penalty := "Canonical"; Args.WT := fun v => v;
     Args.subminiter := 1; Args.submaxiter := 50;
     Args.subtolerance := 1 # (10 ^ 5);
     Args.alphamethod := 1; Args.monotone := true;
     Args.alphainit := 1; Args.alphamin := 1 # (10 ^ 30);
     Args.alphamax := inject_Z (10 ^ 30);
     Args.acceptdecrease := 1 # 10; Args.acceptpast := 10;
     Args.acceptmult := 2;
     Args.stopcriterion := 1; Args.miniter := 5; Args.maxiter := 100;
     Args.tolerance := 1 # (10 ^ 6);
     Args.saveobjective := false; Args.computereconerror := None;
     Args.reconerrortype := 0; Args.savecputime := false;
     Args.savesolutionpath := false; Args.savereconerror := false;
     Args.kwargs := [] |}.

(** A one-pixel Gaussian problem with the identity operator, [y = [1]],
    started at [x = [0]]; the remaining arguments keep their defaults. *)
Definition pixel (itern miniter maxiter acceptpast : Z)
    (alphainit alphamax tau : Q) (saveobjective savecputime : bool) : Args.t :=
  {| Args.y := [1]; Args.A := fun v => v; Args.tau := Scalar tau;
     Args.verbose := 0; Args.converged := false; Args.itern := itern;
     Args.AT := Some (fun v => v); Args.truth := None;
     Args.initialization := Some [0];
     Args.recenter := false; Args.mu := 0;
     Args.noisetype := "Gaussian"; Args.logepsilon := 1 # (10 ^ 10);
     Args.penalty := "Canonical"; Args.WT := fun v => v;
     Args.subminiter := 1; Args.submaxiter := 50;
     Args.subtolerance := 1 # (10 ^ 5);
     Args.alphamethod := 1; Args.monotone := true;
     Args.alphainit := alphainit; Args.alphamin := 1 # (10 ^ 30);
     Args.alphamax := alphamax;
     Args.acceptdecrease := 1 # 10; Args.acceptpast := acceptpast;
     Args.acceptmult := 2;
     Args.stopcriterion := 1; Args.miniter := miniter; Args.maxiter := maxiter;
     Args.tolerance := 1 # (10 ^ 6);
     Args.saveobjective := saveobjective; Args.computereconerror := None;
     Args.reconerrortype := 0; Args.savecputime := savecputime;
     Args.savesolutionpath := false; Args.savereconerror := false;
     Args.kwargs := [] |}.

(** Stand-ins for [np.log], [np.sqrt] and the clock in concrete runs; the
    Gaussian runs below never call the first two. *)
Definition no_log (q : Q) : Q := 0.
Definition no_sqrt (q : Q) : Q := 0.
Definition ticks (itern : Z) : Q := inject_Z itern.

(** Three runs of the one-pixel problem: [pixel_a] saves its traces and
    looks one iteration back; [pixel_b] saves nothing and forces acceptance
    at once ([alphamax = alphainit]); [pixel_c] stops after one iteration. *)
Definition pixel_a : Args.t := pixel 1 2 2 1 (1 # 2) 4 (1 # 2) true true.
Definition pixel_b : Args.t := pixel 1 2 2 10 1 1 (1 # 2) false false.
Definition pixel_c : Args.t := pixel 1 1 1 10 1 1 (1 # 2) true true.

Definition state_of (r : result St.t) : St.t :=
  match r with
  | Ok s => s
  | _ => St.mk [] [] [] [] (Grad None) 0 0 false [] [] None
  end.

(** The states of [pixel_a] and [pixel_b] before and after their first
    iteration. *)
Definition pixel_a0 : St.t :=
  Eval vm_compute in state_of (initialize no_log no_sqrt pixel_a (fun v => v)).
Definition pixel_a1 : St.t :=
  Eval vm_compute in
    state_of (iteration no_log no_sqrt ticks 5 pixel_a (fun v => v) (Some 4) []
                pixel_a0).
Definition pixel_b0 : St.t :=
  Eval vm_compute in state_of (initialize no_log no_sqrt pixel_b (fun v => v)).
Definition pixel_b1 : St.t :=
  Eval vm_compute in
    state_of (iteration no_log no_sqrt ticks 5 pixel_b (fun v => v) (Some 1) []
                pixel_b0).

(** The one-pixel problem with two iterations, forced acceptance in the
    first round and no trace saved, for a choice of the data, the noise
    model, the stopping rule, the subproblem bounds and the keywords. *)
Definition scenario (y : vec) (noisetype : string) (stopcriterion : Z)
    (tolerance : Q) (subminiter submaxiter : Z) (kwargs : list (string * Q))
    : Args.t :=
  {| Args.y := y; Args.A := fun v => v; Args.tau := Scalar (1 # 2);
     Args.verbose := 0; Args.converged := false; Args.itern := 1;
     Args.AT := Some (fun v => v); Args.truth := None;
     Args.initialization := Some [0];
     Args.recenter := false; Args.mu := 0;
     Args.noisetype := noisetype; Args.logepsilon := 1 # (10 ^ 10);
     Args.penalty := "Canonical"; Args.WT := fun v => v;
     Args.subminiter := subminiter; Args.submaxiter := submaxiter;
     Args.subtolerance := 1 # (10 ^ 5);
     Args.alphamethod := 1; Args.monotone := true;
     Args.alphainit := 1; Args.alphamin := 1 # (10 ^ 30);
     Args.alphamax := 1;
     Args.acceptdecrease := 1 # 10; Args.acceptpast := 10;
     Args.acceptmult := 2;
     Args.stopcriterion := stopcriterion; Args.miniter := 2; Args.maxiter := 2;
     Args.tolerance := tolerance;
     Args.saveobjective := false; Args.computereconerror := None;
     Args.reconerrortype := 0; Args.savecputime := false;
     Args.savesolutionpath := false; Args.savereconerror := false;
     Args.kwargs := kwargs |}.




(** ** The acceptance window in the words of the specification

    "the maximum objective over the last [min(itern-1, acceptpast)]
    iterations": the entries [itern - min(itern-1, acceptpast) .. itern - 1]
    of the trace. *)
Definition claimed_past (itern acceptpast : Z) : list Z :=
  arange (itern - Z.min (itern - 1) acceptpast) itern.

Definition claimed_maxpast (objective : vec) (itern acceptpast : Z) : result Q :=
  w <- take objective (claimed_past itern acceptpast) ;;
  vmax w.

(** * Properties *)

(** ** The error monad *)

Lemma bind_Ok {T U : Type} (m : result T) (k : T -> result U) (v : U) :
  bind m k = Ok v -> exists u, m = Ok u /\ k u = Ok v.
Proof.
  destruct m as [u| | |]; simpl; intros H; try discriminate.
  exists u; split; [reflexivity|exact H].
Qed.

Ltac inv_bind H :=
  let u := fresh "u" in
  let Hm := fresh "Hm" in
  apply bind_Ok in H; destruct H as [u [Hm H]].

(** ** Comparisons on rationals *)

Lemma Qltb_lt (a b : Q) : Qltb a b = true <-> a < b.
Proof.
  unfold Qltb. rewrite negb_true_iff.
  destruct (Qle_bool b a) eqn:E.
  - apply Qle_bool_iff in E. split; [discriminate|].
    intros H. exfalso. apply (Qlt_not_le _ _ H E).
  - split; [intros _|reflexivity].
    apply Qnot_le_lt. intros H. apply Qle_bool_iff in H. congruence.
Qed.

Lemma Qltb_ge (a b : Q) : Qltb a b = false <-> b <= a.
Proof.
  unfold Qltb. rewrite negb_false_iff. apply Qle_bool_iff.
Qed.


Lemma mask_nonneg (q : Q) : 0 <= (if Qltb q 0 then 0 else q).
Proof.
  destruct (Qltb q 0) eqn:E.
  - apply Qle_refl.
  - apply Qltb_ge in E. exact E.
Qed.



(** ** Arrays *)





(** *** Indexing *)

Lemma index_lt (n : nat) (i : Z) (k : nat) : index n i = Some k -> (k < n)%nat.
Proof.
  unfold index.
  destruct ((0 <=? i) && (i <? Z.of_nat n))%Z eqn:E1.
  - intros [= <-]. apply andb_true_iff in E1. lia.
  - destruct ((- Z.of_nat n <=? i) && (i <? 0))%Z eqn:E2; [|discriminate].
    intros [= <-]. apply andb_true_iff in E2. lia.
Qed.

Lemma index_nonneg (n : nat) (i : Z) :
  (0 <= i < Z.of_nat n)%Z -> index n i = Some (Z.to_nat i).
Proof.
  intros H. unfold index.
  replace ((0 <=? i) && (i <? Z.of_nat n))%Z with true; [reflexivity|].
  symmetry. apply andb_true_iff. lia.
Qed.

Lemma index_nonneg_inv (n : nat) (i : Z) (k : nat) :
  (0 <= i)%Z -> index n i = Some k -> k = Z.to_nat i /\ (i < Z.of_nat n)%Z.
Proof.
  intros H. unfold index.
  destruct ((0 <=? i) && (i <? Z.of_nat n))%Z eqn:E1.
  - intros [= <-]. apply andb_true_iff in E1. lia.
  - destruct ((- Z.of_nat n <=? i) && (i <? 0))%Z eqn:E2; [|discriminate].
    apply andb_true_iff in E2. lia.
Qed.

Lemma update_length (k : nat) (q : Q) (v : vec) :
  length (update k q v) = length v.
Proof.
  revert k; induction v as [|h t IH]; intros [|k]; simpl; auto.
Qed.

Lemma nth_update_same (k : nat) (q d : Q) (v : vec) :
  (k < length v)%nat -> nth k (update k q v) d = q.
Proof.
  revert k; induction v as [|h t IH]; intros [|k]; simpl; intros H;
    try lia; auto.
  apply IH. lia.
Qed.

Lemma nth_update_other (k j : nat) (q d : Q) (v : vec) :
  k <> j -> nth j (update k q v) d = nth j v d.
Proof.
  revert k j; induction v as [|h t IH]; intros [|k] [|j]; simpl; intros H;
    try reflexivity; try congruence.
  apply IH. congruence.
Qed.

Lemma setitem_length (v v' : vec) (i : Z) (q : Q) :
  setitem v i q = Ok v' -> length v' = length v.
Proof.
  unfold setitem. destruct (index (length v) i); [|discriminate].
  intros [= <-]. apply update_length.
Qed.

(** Reading back what was just stored. *)
Lemma getitem_setitem (v v' : vec) (i : Z) (q : Q) :
  setitem v i q = Ok v' -> getitem v' i = Ok q.
Proof.
  intros H. pose proof (setitem_length _ _ _ _ H) as L.
  unfold setitem in H. unfold getitem. rewrite L.
  destruct (index (length v) i) as [k|] eqn:E; [|discriminate].
  injection H as <-. rewrite nth_update_same; [reflexivity|].
  eapply index_lt; eauto.
Qed.

(** A store at a positive index leaves entry 0 alone. *)
Lemma setitem_keeps_first (v v' : vec) (i : Z) (q : Q) :
  (1 <= i)%Z -> setitem v i q = Ok v' -> nth 0 v' 0 = nth 0 v 0.
Proof.
  intros Hi H. unfold setitem in H.
  destruct (index (length v) i) as [k|] eqn:E; [|discriminate].
  injection H as <-. apply index_nonneg_inv in E; [|lia].
  apply nth_update_other. lia.
Qed.

Lemma setitem_keeps_other (v v' : vec) (i j : Z) (q : Q) :
  (0 <= i)%Z -> (0 <= j)%Z -> i <> j -> setitem v i q = Ok v' ->
  nth (Z.to_nat j) v' 0 = nth (Z.to_nat j) v 0.
Proof.
  intros Hi Hj Hij H. unfold setitem in H.
  destruct (index (length v) i) as [k|] eqn:E; [|discriminate].
  injection H as <-. apply index_nonneg_inv in E; [|lia].
  apply nth_update_other. lia.
Qed.

Lemma zeros_length (n : Z) (v : vec) :
  zeros n = Ok v -> length v = Z.to_nat n /\ (0 <= n)%Z.
Proof.
  unfold zeros. destruct (Z.ltb_spec n 0); [discriminate|].
  intros [= <-]. rewrite repeat_length. auto.
Qed.

Lemma zeros_nth (n : Z) (v : vec) (k : nat) :
  zeros n = Ok v -> nth k v 0 = 0.
Proof.
  unfold zeros. destruct (n <? 0)%Z; [discriminate|].
  intros [= <-]. generalize (Z.to_nat n). intros m. revert k.
  induction m as [|m IH]; intros [|k]; simpl; auto.
Qed.

Lemma slice0_length (v : vec) (stop : Z) :
  (0 <= stop <= Z.of_nat (length v))%Z ->
  length (slice0 v stop) = Z.to_nat stop.
Proof.
  intros H. unfold slice0.
  destruct (Z.ltb_spec stop 0); [lia|].
  rewrite length_firstn. lia.
Qed.

Lemma slice0_nth (v : vec) (stop : Z) (k : nat) :
  (0 <= stop)%Z -> (Z.of_nat k < stop)%Z ->
  nth k (slice0 v stop) 0 = nth k v 0.
Proof.
  intros H0 Hk. unfold slice0.
  destruct (Z.ltb_spec stop 0); [lia|].
  destruct (Z.le_gt_cases stop (Z.of_nat (length v))).
  - rewrite Z.min_l by lia. rewrite nth_firstn.
    destruct (Nat.ltb_spec k (Z.to_nat stop)); [reflexivity|lia].
  - rewrite Z.min_r by lia. rewrite Nat2Z.id. rewrite firstn_all. reflexivity.
Qed.


Lemma vsum_zero (v : vec) : Forall (fun q => q == 0) v -> vsum v == 0.
Proof.
  induction 1 as [|q v Hq _ IH]; simpl; [reflexivity|].
  rewrite Hq, IH. reflexivity.
Qed.




(** *** Maximum of an array, index arrays *)

Lemma getitem_nth (v : vec) (i : Z) (q : Q) :
  (0 <= i)%Z -> getitem v i = Ok q -> nth (Z.to_nat i) v 0 = q.
Proof.
  intros Hi. unfold getitem.
  destruct (index (length v) i) as [k|] eqn:E; [|discriminate].
  apply index_nonneg_inv in E; [|exact Hi]. destruct E as [-> _].
  intros [= <-]. reflexivity.
Qed.

Lemma fold_max (t : vec) (h : Q) :
  let r := fold_left (fun m q => if Qltb m q then q else m) t h in
  (r = h \/ In r t) /\ h <= r /\ Forall (fun q => q <= r) t.
Proof.
  revert h. induction t as [|q t IH]; intros h; simpl.
  - split; [left; reflexivity|]. split; [apply Qle_refl|constructor].
  - destruct (IH (if Qltb h q then q else h)) as (Hin & Hle & Hall).
    destruct (Qltb h q) eqn:E.
    + apply Qltb_lt in E. split; [|split].
      * destruct Hin as [->|Hin]; auto.
      * apply Qle_trans with q; [apply Qlt_le_weak; exact E|exact Hle].
      * constructor; assumption.
    + apply Qltb_ge in E. split; [|split].
      * destruct Hin as [->|Hin]; auto.
      * exact Hle.
      * constructor; [apply Qle_trans with h; assumption|assumption].
Qed.

Lemma vmax_spec (w : vec) (m : Q) :
  vmax w = Ok m -> In m w /\ Forall (fun q => q <= m) w.
Proof.
  destruct w as [|h t]; simpl; [discriminate|].
  intros [= <-]. destruct (fold_max t h) as (Hin & Hle & Hall).
  split; [destruct Hin as [->|Hin]; auto|constructor; assumption].
Qed.

Lemma take_nonneg (v : vec) (idx : list Z) (w : vec) :
  (forall i, In i idx -> (0 <= i)%Z) ->
  take v idx = Ok w ->
  w = map (fun i => nth (Z.to_nat i) v 0) idx.
Proof.
  revert w. induction idx as [|i idx IH]; intros w Hpos; simpl.
  - intros [= <-]. reflexivity.
  - intros H. inv_bind H. inv_bind H. injection H as <-.
    apply getitem_nth in Hm; [|apply Hpos; left; reflexivity].
    rewrite Hm. f_equal. apply IH; [|assumption].
    intros j Hj. apply Hpos. right. exact Hj.
Qed.

Lemma in_arange (a b k : Z) : In k (arange a b) <-> (a <= k < b)%Z.
Proof.
  unfold arange. rewrite in_map_iff. split.
  - intros [n [<- Hn]]. apply in_seq in Hn. lia.
  - intros H. exists (Z.to_nat (k - a)). split; [lia|]. apply in_seq. lia.
Qed.

Lemma arange_length (a b : Z) : length (arange a b) = Z.to_nat (b - a).
Proof.
  unfold arange. rewrite length_map, length_seq. reflexivity.
Qed.

Section Facts.

Variable Qlog : Q -> Q.
Variable Qsqrt : Q -> Q.
Variable toc : Z -> Q.

(** ** The denoising subproblem *)

Lemma computesubsolution_nonneg (step : vec) (tau : operand) (alpha : Q)
    (penalty : string) (mu : Q) (out : vec) :
  computesubsolution step tau alpha penalty mu = Ok out ->
  Forall (fun q => 0 <= q) out.
Proof.
  unfold computesubsolution.
  destruct (String.eqb (lower penalty) "canonical"); [|discriminate].
  destruct (Qeq_bool alpha 0); [discriminate|].
  intros H. inv_bind H. injection H as <-.
  apply Forall_forall. intros q Hq.
  apply in_map_iff in Hq. destruct Hq as [r [<- _]]. apply mask_nonneg.
Qed.



(** ** The objective *)

(** The penalty dispatch of [computeobjective] takes no branch. *)
Lemma computeobjective_eq (x y Ax : vec) (tau : operand) (noisetype : string)
    (logepsilon : Q) (penalty : string) (WT : vec -> vec) :
  computeobjective Qlog x y Ax tau noisetype logepsilon penalty WT =
  if String.eqb (lower noisetype) "poisson" then
    precompute <- broadcast Qmult y (map (fun a => Qlog (a + logepsilon)) Ax) ;;
    Ok (vsum Ax - vsum precompute)
  else if String.eqb (lower noisetype) "gaussian" then
    d <- broadcast Qminus y Ax ;; Ok (vsum (map sq d) / 2)
  else Raise UnboundLocalError.
Proof.
  unfold computeobjective. simpl.
  destruct (String.eqb (lower noisetype) "poisson").
  - destruct (broadcast Qmult y _); reflexivity.
  - destruct (String.eqb (lower noisetype) "gaussian").
    + destruct (broadcast Qminus y Ax); reflexivity.
    + reflexivity.
Qed.

(** C3.  [computeobjective] returns the data-fit term alone: the penalty
    dispatch compares the attribute [penalty.lower] with a string, no branch
    is taken, and [tau] and [x] are never read.  At [x = [1]], [tau = 1] with
    a perfect Gaussian fit the value is 0, not [sum(|tau*x|) = 1]. *)
Theorem computeobjective_data_fit_only :
  (forall (x y Ax : vec) (tau : operand) (noisetype : string) (logepsilon : Q)
          (penalty : string) (WT : vec -> vec),
      computeobjective Qlog x y Ax tau noisetype logepsilon penalty WT =
      if String.eqb (lower noisetype) "poisson" then
        precompute <- broadcast Qmult y (map (fun a => Qlog (a + logepsilon)) Ax) ;;
        Ok (vsum Ax - vsum precompute)
      else if String.eqb (lower noisetype) "gaussian" then
        d <- broadcast Qminus y Ax ;; Ok (vsum (map sq d) / 2)
      else Raise UnboundLocalError)
  /\ (exists v,
         computeobjective Qlog [1] [1] [1] (Scalar 1) "Gaussian" 0 "canonical"
           (fun u => u) = Ok v
         /\ v == 0
         /\ ~ v == vsum (map sq [1 - 1]) / 2 + vsum (map Qabs [1 * 1])).
Proof.
  split.
  2:{ eexists. split; [reflexivity|]. split; [reflexivity|].
      intros H. vm_compute in H. discriminate H. }
  intros x y Ax tau noisetype logepsilon penalty WT.
  apply computeobjective_eq.
Qed.

(** ** The convergence check *)




(** C8 (claim as stated).  With the unrecognised criterion 7 the check
    returns the non-converged result and raises nothing. *)
Lemma checkconvergence_unknown_criterion_returns :
  checkconvergence 5 5 7 (1 # 10) [1] [1] 0 [0] = Ok false
  /\ forall e, checkconvergence 5 5 7 (1 # 10) [1] [1] 0 [0] <> Raise e.
Proof.
  split; [reflexivity|intros e; discriminate].
Qed.

(** C8 (amended).  For every criterion outside 1..6 the check returns the
    non-converged result, whatever the other arguments are. *)
Theorem checkconvergence_unknown_criterion :
  forall (itern miniter stopcriterion : Z) (tolerance : Q) (dx x : vec)
         (cputime : Q) (objective : vec),
    (stopcriterion < 1 \/ 6 < stopcriterion)%Z ->
    checkconvergence itern miniter stopcriterion tolerance dx x cputime objective
    = Ok false.
Proof.
  intros itern miniter sc tol dx x cputime objective H.
  unfold checkconvergence.
  destruct (miniter <=? itern)%Z; [|reflexivity].
  destruct (Z.eqb_spec sc 1); [lia|].
  destruct (Z.eqb_spec sc 2); [lia|].
  destruct (Z.eqb_spec sc 3); [lia|].
  destruct (Z.eqb_spec sc 4); [lia|].
  destruct (Z.eqb_spec sc 5); [lia|].
  destruct (Z.eqb_spec sc 6); [lia|].
  reflexivity.
Qed.

Lemma checkconvergence_unknown_criterion_witness :
  checkconvergence 9 5 0 (1 # 10) [1] [1] 0 [0] = Ok false.
Proof.
  apply (checkconvergence_unknown_criterion 9 5 0 (1 # 10) [1] [1] 0 [0]).
  left. lia.
Defined.

(** ** The entry point *)

(** C9.  The first statement of [SPIRALTAP] calls [kwargs.has_key]; under
    Python 3 the call raises [AttributeError], so no argument is validated,
    no iteration runs and nothing is returned, whatever the arguments. *)
Theorem SPIRALTAP_python3_AttributeError :
  forall (fuel : nat) (a : Args.t),
    input_parameters Py3 a = Raise AttributeError
    /\ SPIRALTAP Qlog Qsqrt toc Py3 fuel a = Raise AttributeError.
Proof.
  intros fuel a. split; reflexivity.
Qed.

End Facts.

(** ** The main loop *)

Section Driver.

Variable Qlog : Q -> Q.
Variable Qsqrt : Q -> Q.
Variable toc : Z -> Q.

Lemma main_loop_reaches (fuel rounds : nat) (a : Args.t) (AT : vec -> vec)
    (am : option Q) (sqrty : vec) (s sf : St.t) :
  main_loop Qlog Qsqrt toc fuel rounds a AT am sqrty s = Ok sf ->
  reaches Qlog Qsqrt toc rounds a AT am sqrty s sf /\ guard a sf = false.
Proof.
  revert s. induction fuel as [|fuel IH]; intros s; simpl.
  - destruct (guard a s) eqn:G; [discriminate|].
    intros [= <-]. split; [constructor|exact G].
  - destruct (guard a s) eqn:G.
    + intros H. inv_bind H. apply IH in H. destruct H as [R G'].
      split; [|exact G']. econstructor; eauto.
    + intros [= <-]. split; [constructor|exact G].
Qed.

(** An invariant of the loop body holds wherever the loop passes. *)
Lemma reaches_invariant (P : St.t -> Prop) (rounds : nat) (a : Args.t)
    (AT : vec -> vec) (am : option Q) (sqrty : vec) :
  (forall s s', P s -> guard a s = true ->
     iteration Qlog Qsqrt toc rounds a AT am sqrty s = Ok s' -> P s') ->
  forall s s', reaches Qlog Qsqrt toc rounds a AT am sqrty s s' -> P s -> P s'.
Proof.
  intros Step s s' R. induction R; intros HP; eauto.
Qed.

(** *** One backtracking round *)

Lemma accepted_iff (a : Args.t) (am candidate mp alpha n : Q) (acc : bool) :
  accepted a (Some am) candidate mp alpha n = Ok acc ->
  (acc = true <->
   candidate <= mp - a.(Args.acceptdecrease) * alpha / 2 * n \/ am <= alpha).
Proof.
  unfold accepted.
  destruct (Qle_bool candidate _) eqn:E.
  - intros [= <-]. apply Qle_bool_iff in E.
    split; [intros _; left; exact E|reflexivity].
  - simpl. intros [= <-]. rewrite Qle_bool_iff.
    split; [intros H; right; exact H|].
    intros [H|H]; [|exact H]. apply Qle_bool_iff in H. congruence.
Qed.

Lemma backtracking_round_Ok (a : Args.t) (am : option Q) (s : St.t)
    (mp alpha : Q) (obj : vec) (acc : bool) (sol : Sol.t) :
  backtracking_round Qlog a am s mp alpha obj = Ok (acc, sol) ->
  exists g step dx Adx cand,
    grad_div s.(St.grad) alpha = Ok g
    /\ broadcast Qminus s.(St.xprevious) g = Ok step
    /\ computesubsolution step a.(Args.tau) alpha a.(Args.penalty) a.(Args.mu)
       = Ok sol.(Sol.x)
    /\ broadcast Qminus sol.(Sol.x) s.(St.xprevious) = Ok dx
    /\ sol.(Sol.Ax) = a.(Args.A) sol.(Sol.x)
    /\ broadcast Qminus sol.(Sol.Ax) s.(St.Axprevious) = Ok Adx
    /\ computeobjective Qlog sol.(Sol.x) a.(Args.y) sol.(Sol.Ax) a.(Args.tau)
         a.(Args.noisetype) a.(Args.logepsilon) a.(Args.penalty) a.(Args.WT)
       = Ok cand
    /\ setitem obj s.(St.itern) cand = Ok sol.(Sol.objective)
    /\ accepted a am cand mp alpha (vsum (map sq dx)) = Ok acc
    /\ sol.(Sol.dx) = Some dx /\ sol.(Sol.Adx) = Some Adx
    /\ sol.(Sol.normsqdx) = Some (vsum (map sq dx))
    /\ sol.(Sol.alpha) = a.(Args.acceptmult) * alpha.
Proof.
  unfold backtracking_round. intros H.
  inv_bind H. rename u into g, Hm into Hg.
  inv_bind H. rename u into step, Hm into Hstep.
  inv_bind H. rename u into x, Hm into Hx.
  inv_bind H. rename u into dx, Hm into Hdx.
  inv_bind H. rename u into Adx, Hm into HAdx.
  inv_bind H. rename u into cand, Hm into Hcand.
  inv_bind H. rename u into obj', Hm into Hset.
  inv_bind H. rename u into c', Hm into Hget.
  inv_bind H. rename u into acc', Hm into Hacc.
  injection H as <- <-. simpl.
  rewrite (getitem_setitem _ _ _ _ Hset) in Hget. injection Hget as <-.
  exists g, step, dx, Adx, cand. repeat split; assumption.
Qed.

Lemma backtracking_Ok (fuel : nat) (a : Args.t) (am : option Q) (s : St.t)
    (mp alpha : Q) (obj : vec) (sol : Sol.t) :
  backtracking Qlog fuel a am s mp alpha obj = Ok sol ->
  exists alpha' obj',
    backtracking_round Qlog a am s mp alpha' obj' = Ok (true, sol)
    /\ length obj' = length obj
    /\ forall j, (0 <= s.(St.itern))%Z -> (0 <= j)%Z -> j <> s.(St.itern) ->
         nth (Z.to_nat j) obj' 0 = nth (Z.to_nat j) obj 0.
Proof.
  revert alpha obj. induction fuel as [|fuel IH]; intros alpha obj; simpl;
    [discriminate|].
  intros H. inv_bind H. destruct u as [acc sol']. simpl in H.
  destruct acc.
  - injection H as <-. exists alpha, obj.
    split; [exact Hm|]. split; [reflexivity|]. intros; reflexivity.
  - apply IH in H. destruct H as [alpha' [obj' [Hr [Hl Hn]]]].
    apply backtracking_round_Ok in Hm.
    destruct Hm as (g & step & dx & Adx & cand & _ & _ & _ & _ & _ & _ & _
                    & Hset & _).
    exists alpha', obj'. split; [exact Hr|]. split.
    + rewrite Hl. eapply setitem_length; eauto.
    + intros j H0 Hj Hne. rewrite Hn by assumption.
      eapply (setitem_keeps_other _ _ (St.itern s) j); eauto; congruence.
Qed.

(** *** The "Compute solution" step *)

(** What every branch of the Barzilai-Borwein method leaves behind. *)
Lemma compute_solution_bb (fuel : nat) (a : Args.t) (am : option Q) (s : St.t)
    (sol : Sol.t) :
  a.(Args.alphamethod) = 1%Z ->
  compute_solution Qlog fuel a am s = Ok sol ->
  exists dx Adx,
    broadcast Qminus sol.(Sol.x) s.(St.xprevious) = Ok dx
    /\ broadcast Qminus sol.(Sol.Ax) s.(St.Axprevious) = Ok Adx
    /\ sol.(Sol.Ax) = a.(Args.A) sol.(Sol.x)
    /\ sol.(Sol.dx) = Some dx /\ sol.(Sol.Adx) = Some Adx
    /\ sol.(Sol.normsqdx) = Some (vsum (map sq dx)).
Proof.
  intros Hm. unfold compute_solution. rewrite Hm. simpl.
  destruct a.(Args.monotone).
  - intros H. inv_bind H. apply backtracking_Ok in H.
    destruct H as [alpha' [obj' [H _]]].
    apply backtracking_round_Ok in H.
    destruct H as (g & step & dx & Adx & cand & _ & _ & _ & Hdx & HAx & HAdx
                   & _ & _ & _ & E1 & E2 & E3 & _).
    exists dx, Adx. repeat split; assumption.
  - intros H. inv_bind H. inv_bind H. inv_bind H. inv_bind H. inv_bind H.
    inv_bind H. injection H as <-. simpl.
    eexists; eexists; repeat split; eassumption.
Qed.

(** The proximal point is the new iterate in every branch that assigns
    [x]. *)
Lemma compute_solution_x (fuel : nat) (a : Args.t) (am : option Q) (s : St.t)
    (sol : Sol.t) :
  (a.(Args.alphamethod) = 0 \/ a.(Args.alphamethod) = 1)%Z ->
  compute_solution Qlog fuel a am s = Ok sol ->
  exists step alpha,
    computesubsolution step a.(Args.tau) alpha a.(Args.penalty) a.(Args.mu)
    = Ok sol.(Sol.x).
Proof.
  intros Hm. unfold compute_solution.
  destruct Hm as [Hm|Hm]; rewrite Hm; simpl.
  - intros H. inv_bind H. inv_bind H. inv_bind H. inv_bind H.
    injection H as <-. simpl. eauto.
  - destruct a.(Args.monotone).
    + intros H. inv_bind H. apply backtracking_Ok in H.
      destruct H as [alpha' [obj' [H _]]].
      apply backtracking_round_Ok in H.
      destruct H as (g & step & dx & Adx & cand & _ & _ & Hx & _).
      eauto.
    + intros H. inv_bind H. inv_bind H. inv_bind H. inv_bind H. inv_bind H.
      inv_bind H. injection H as <-. simpl. eauto.
Qed.

(** The objective trace keeps its length, and only entry [itern] can
    change. *)
Lemma compute_solution_objective (fuel : nat) (a : Args.t) (am : option Q)
    (s : St.t) (sol : Sol.t) :
  compute_solution Qlog fuel a am s = Ok sol ->
  length sol.(Sol.objective) = length s.(St.objective)
  /\ forall j, (0 <= s.(St.itern))%Z -> (0 <= j)%Z -> j <> s.(St.itern) ->
       nth (Z.to_nat j) sol.(Sol.objective) 0
       = nth (Z.to_nat j) s.(St.objective) 0.
Proof.
  unfold compute_solution.
  destruct (a.(Args.alphamethod) =? 0)%Z.
  { intros H. inv_bind H. inv_bind H. inv_bind H. inv_bind H.
    injection H as <-. simpl. auto. }
  destruct (a.(Args.alphamethod) =? 1)%Z.
  2:{ intros [= <-]. simpl. auto. }
  destruct a.(Args.monotone).
  - intros H. inv_bind H. apply backtracking_Ok in H.
    destruct H as [alpha' [obj' [H [Hl Hn]]]].
    apply backtracking_round_Ok in H.
    destruct H as (g & step & dx & Adx & cand & _ & _ & _ & _ & _ & _ & _
                   & Hset & _).
    split.
    + rewrite <- Hl. eapply setitem_length; eauto.
    + intros j H0 Hj Hne. rewrite <- Hn by assumption.
      eapply (setitem_keeps_other _ _ (St.itern s) j); eauto; congruence.
  - intros H. inv_bind H. inv_bind H. inv_bind H. inv_bind H. inv_bind H.
    inv_bind H. injection H as <-. simpl.
    destruct a.(Args.saveobjective).
    + inv_bind Hm4. split.
      * eapply setitem_length; eauto.
      * intros j H0 Hj Hne. eapply (setitem_keeps_other _ _ (St.itern s) j); eauto; congruence.
    + injection Hm4 as <-. auto.
Qed.

(** *** One iteration *)

Lemma iteration_Ok (rounds : nat) (a : Args.t) (AT : vec -> vec)
    (am : option Q) (sqrty : vec) (s s' : St.t) :
  iteration Qlog Qsqrt toc rounds a AT am sqrty s = Ok s' ->
  exists sol,
    compute_solution Qlog rounds a am s = Ok sol
    /\ update_alpha a sqrty sol = Ok s'.(St.alpha)
    /\ s'.(St.x) = sol.(Sol.x) /\ s'.(St.Ax) = sol.(Sol.Ax)
    /\ s'.(St.xprevious) = sol.(Sol.x) /\ s'.(St.Axprevious) = sol.(Sol.Ax)
    /\ s'.(St.itern) = (s.(St.itern) + 1)%Z
    /\ s'.(St.objective) = sol.(Sol.objective)
    /\ (if a.(Args.savecputime)
        then setitem s.(St.cputime) s.(St.itern) (toc s.(St.itern))
        else Ok s.(St.cputime)) = Ok s'.(St.cputime)
    /\ (if a.(Args.savereconerror)
        then e <- computereconerror Qsqrt a sol.(Sol.x) ;;
             r <- bound s.(St.reconerror) ;;
             r <- setitem r s.(St.itern) e ;;
             Ok (Some r)
        else Ok s.(St.reconerror)) = Ok s'.(St.reconerror)
    /\ a.(Args.savesolutionpath) = false
    /\ keep (computegrad a.(Args.y) sol.(Sol.Ax) AT a.(Args.noisetype)
               a.(Args.logepsilon)) = Ok s'.(St.grad)
    /\ exists dx now,
         sol.(Sol.dx) = Some dx
         /\ getitem s'.(St.cputime) s.(St.itern) = Ok now
         /\ checkconvergence s.(St.itern) a.(Args.miniter)
              a.(Args.stopcriterion) a.(Args.tolerance) dx sol.(Sol.x) now
              sol.(Sol.objective) = Ok s'.(St.converged).
Proof.
  unfold iteration. intros H.
  inv_bind H. rename u into sol, Hm into Hsol.
  inv_bind H. rename u into cputime, Hm into Hcpu.
  inv_bind H. rename u into reconerror, Hm into Hrec.
  inv_bind H. rename u into upath, Hm into Hpath.
  inv_bind H. rename u into grad, Hm into Hgrad.
  inv_bind H. rename u into dx, Hm into Hdx.
  inv_bind H. rename u into now, Hm into Hnow.
  inv_bind H. rename u into converged, Hm into Hconv.
  inv_bind H. rename u into alpha, Hm into Halpha.
  injection H as <-. simpl.
  exists sol. repeat split; try assumption.
  - destruct a.(Args.savesolutionpath); [discriminate|reflexivity].
  - exists dx, now. repeat split; try assumption.
    destruct sol.(Sol.dx); simpl in Hdx; congruence.
Qed.

Lemma iteration_itern (rounds : nat) (a : Args.t) (AT : vec -> vec)
    (am : option Q) (sqrty : vec) (s s' : St.t) :
  iteration Qlog Qsqrt toc rounds a AT am sqrty s = Ok s' ->
  s'.(St.itern) = (s.(St.itern) + 1)%Z.
Proof.
  intros H. apply iteration_Ok in H. destruct H as [sol H]. tauto.
Qed.

(** The three traces keep their lengths, and an iteration with
    [itern >= 1] leaves their entries 0 alone. *)
Lemma iteration_traces (rounds : nat) (a : Args.t) (AT : vec -> vec)
    (am : option Q) (sqrty : vec) (s s' : St.t) :
  iteration Qlog Qsqrt toc rounds a AT am sqrty s = Ok s' ->
  length s'.(St.objective) = length s.(St.objective)
  /\ length s'.(St.cputime) = length s.(St.cputime)
  /\ (forall r', s'.(St.reconerror) = Some r' ->
        exists r, s.(St.reconerror) = Some r /\ length r' = length r
                  /\ ((1 <= s.(St.itern))%Z -> nth 0 r' 0 = nth 0 r 0))
  /\ ((1 <= s.(St.itern))%Z ->
        nth 0 s'.(St.objective) 0 = nth 0 s.(St.objective) 0
        /\ nth 0 s'.(St.cputime) 0 = nth 0 s.(St.cputime) 0).
Proof.
  intros H. apply iteration_Ok in H.
  destruct H as (sol & Hsol & _ & _ & _ & _ & _ & _ & Hobj & Hcpu & Hrec & _).
  apply compute_solution_objective in Hsol. destruct Hsol as [Hl Hn].
  rewrite Hobj. split; [exact Hl|]. split; [|split].
  - destruct a.(Args.savecputime).
    + eapply setitem_length; eauto.
    + injection Hcpu as <-. reflexivity.
  - intros r' Hr'. destruct a.(Args.savereconerror).
    + inv_bind Hrec. inv_bind Hrec. inv_bind Hrec.
      rewrite Hr' in Hrec. injection Hrec as ->.
      destruct s.(St.reconerror) as [r|]; [|discriminate].
      injection Hm0 as <-. exists r. split; [reflexivity|]. split.
      * eapply setitem_length; eauto.
      * intros Hi. eapply setitem_keeps_first; eauto.
    + injection Hrec as Hrec. rewrite Hr' in Hrec. exists r'. auto.
  - intros Hi. split.
    + apply (Hn 0%Z); lia.
    + destruct a.(Args.savecputime).
      * eapply setitem_keeps_first; eauto.
      * injection Hcpu as <-. reflexivity.
Qed.

(** *** The stages of [SPIRALTAP] *)

Lemma SPIRALTAP_Ok (version : python) (fuel : nat) (a : Args.t)
    (r : vec * Out.t) :
  SPIRALTAP Qlog Qsqrt toc version fuel a = Ok r ->
  exists am AT sqrty s0 sf,
    input_parameters version a = Ok am
    /\ check_inputs a = Ok AT
    /\ method_parameters Qsqrt a = Ok sqrty
    /\ initialize Qlog Qsqrt a AT = Ok s0
    /\ main_loop Qlog Qsqrt toc fuel fuel a AT am sqrty s0 = Ok sf
    /\ post_process a sf = Ok r.
Proof.
  unfold SPIRALTAP. intros H.
  inv_bind H. inv_bind H. inv_bind H. inv_bind H. inv_bind H.
  eexists; eexists; eexists; eexists; eexists. repeat split; eassumption.
Qed.

(** What the validation guarantees about the iteration bounds. *)
Lemma check_inputs_bounds (a : Args.t) (AT : vec -> vec) :
  check_inputs a = Ok AT ->
  (1 <= a.(Args.miniter) <= a.(Args.maxiter))%Z.
Proof.
  unfold check_inputs.
  destruct (negb _); [discriminate|].
  destruct (negb _); [discriminate|].
  destruct (_ <? 0)%Z; [discriminate|].
  destruct (Qltb _ 0); [discriminate|].
  destruct (Qltb _ 0); [discriminate|].
  destruct (Qltb _ 0); [discriminate|].
  destruct ((a.(Args.miniter) <=? 0) || (a.(Args.maxiter) <=? 0))%Z eqn:E1;
    [discriminate|].
  destruct (a.(Args.maxiter) <? a.(Args.miniter))%Z eqn:E2; [discriminate|].
  intros _. apply orb_false_iff in E1. lia.
Qed.

Lemma initialize_Ok (a : Args.t) (AT : vec -> vec) (s0 : St.t) :
  initialize Qlog Qsqrt a AT = Ok s0 ->
  let xinit := match a.(Args.initialization) with
               | None => AT a.(Args.y)
               | Some v => v
               end in
  s0.(St.itern) = a.(Args.itern)
  /\ s0.(St.converged) = a.(Args.converged)
  /\ s0.(St.x) = xinit /\ s0.(St.xprevious) = xinit
  /\ s0.(St.Ax) = a.(Args.A) xinit /\ s0.(St.Axprevious) = a.(Args.A) xinit
  /\ s0.(St.alpha) = a.(Args.alphainit)
  /\ length s0.(St.objective) = Z.to_nat (a.(Args.maxiter) + 1)
  /\ length s0.(St.cputime) = Z.to_nat (a.(Args.maxiter) + 1)
  /\ (forall k, nth k s0.(St.cputime) 0 = 0)
  /\ (if a.(Args.saveobjective)
      then exists o,
          computeobjective Qlog xinit a.(Args.y) (a.(Args.A) xinit)
            a.(Args.tau) a.(Args.noisetype) a.(Args.logepsilon)
            a.(Args.penalty) a.(Args.WT) = Ok o
          /\ getitem s0.(St.objective) (a.(Args.itern) - 1) = Ok o
      else forall k, nth k s0.(St.objective) 0 = 0)
  /\ (if a.(Args.savereconerror)
      then exists r e,
          s0.(St.reconerror) = Some r
          /\ length r = Z.to_nat (a.(Args.maxiter) + 1)
          /\ computereconerror Qsqrt a xinit = Ok e
          /\ getitem r (a.(Args.itern) - 1) = Ok e
      else s0.(St.reconerror) = None).
Proof.
  intros H. cbv zeta. unfold initialize in H.
  destruct a.(Args.recenter); [discriminate|].
  inv_bind H. rename u into grad.
  inv_bind H. rename u into cputime, Hm0 into Hcpu.
  inv_bind H. rename u into objective, Hm0 into Hobj.
  inv_bind H. rename u into objective', Hm0 into Hobj'.
  inv_bind H. rename u into reconerror, Hm0 into Hrec.
  injection H as <-. simpl.
  repeat (split; [reflexivity|]).
  split.
  { destruct a.(Args.saveobjective).
    - inv_bind Hobj'. rewrite (setitem_length _ _ _ _ Hobj').
      apply zeros_length in Hobj. tauto.
    - injection Hobj' as <-. apply zeros_length in Hobj. tauto. }
  split; [apply zeros_length in Hcpu; tauto|].
  split; [intros k; eapply zeros_nth; eauto|].
  split.
  - destruct a.(Args.saveobjective).
    + inv_bind Hobj'. exists u. split; [assumption|].
      eapply getitem_setitem; eauto.
    + injection Hobj' as <-. intros k. eapply zeros_nth; eauto.
  - destruct a.(Args.savereconerror).
    + inv_bind Hrec. inv_bind Hrec. inv_bind Hrec. injection Hrec as <-.
      exists u1, u0. split; [reflexivity|]. split.
      * rewrite (setitem_length _ _ _ _ Hm2). apply zeros_length in Hm0. tauto.
      * split; [assumption|]. eapply getitem_setitem; eauto.
    + injection Hrec as <-. reflexivity.
Qed.

Lemma post_process_Ok (a : Args.t) (s : St.t) (x : vec) (out : Out.t) :
  post_process a s = Ok (x, out) ->
  x = map (fun q => q + a.(Args.mu)) s.(St.x)
  /\ out.(Out.iterations) = (s.(St.itern) - 1)%Z
  /\ out.(Out.objective)
     = (if a.(Args.saveobjective)
        then Some (slice0 s.(St.objective) (s.(St.itern) - 1)) else None)
  /\ out.(Out.cputime)
     = (if a.(Args.savecputime)
        then Some (slice0 s.(St.cputime) (s.(St.itern) - 1)) else None)
  /\ (if a.(Args.savereconerror)
      then exists r, s.(St.reconerror) = Some r
                     /\ out.(Out.reconerror)
                        = Some (slice0 r (s.(St.itern) - 1))
      else out.(Out.reconerror) = None).
Proof.
  unfold post_process. intros H. inv_bind H. inv_bind H.
  injection H as <- <-. simpl. repeat (split; [reflexivity|]).
  destruct a.(Args.savereconerror).
  - inv_bind Hm. injection Hm as <-.
    destruct s.(St.reconerror) as [r|]; [|discriminate].
    injection Hm1 as <-. exists r. auto.
  - injection Hm as <-. reflexivity.
Qed.

(** *** The iteration counter *)

Lemma guard_false (a : Args.t) (s : St.t) :
  guard a s = false ->
  (a.(Args.miniter) < s.(St.itern))%Z
  /\ ((a.(Args.maxiter) < s.(St.itern))%Z \/ s.(St.converged) = true).
Proof.
  unfold guard. intros H. apply orb_false_iff in H. destruct H as [H1 H2].
  apply andb_false_iff in H2. split; [lia|].
  destruct H2 as [H2|H2]; [left; lia|right].
  destruct s.(St.converged); [reflexivity|discriminate].
Qed.

Lemma reaches_itern (rounds : nat) (a : Args.t) (AT : vec -> vec)
    (am : option Q) (sqrty : vec) (s s' : St.t) :
  (a.(Args.miniter) <= a.(Args.maxiter))%Z ->
  reaches Qlog Qsqrt toc rounds a AT am sqrty s s' ->
  (s.(St.itern) <= s'.(St.itern))%Z
  /\ ((s.(St.itern) <= a.(Args.maxiter) + 1)%Z ->
      (s'.(St.itern) <= a.(Args.maxiter) + 1)%Z).
Proof.
  intros Hmm R. induction R as [s|s s' s'' G It R IH].
  - split; [lia|auto].
  - apply iteration_itern in It. destruct IH as [IH1 IH2].
    split; [lia|]. intros _. apply IH2.
    unfold guard in G. apply orb_true_iff in G.
    destruct G as [G|G]; [|apply andb_true_iff in G]; lia.
Qed.

Lemma check_inputs_AT (a : Args.t) (AT : vec -> vec) :
  check_inputs a = Ok AT -> a.(Args.AT) = Some AT.
Proof.
  unfold check_inputs.
  repeat match goal with
         | |- context [if ?c then Raise _ else _] => destruct c; [discriminate|]
         end.
  intros H. inv_bind H. inv_bind H.
  destruct a.(Args.AT) as [f|]; [|discriminate].
  inv_bind Hm. injection Hm as <-.
  destruct (_ || _) in H; [discriminate|]. injection H as <-. reflexivity.
Qed.


(** *** The traces along the loop *)

Lemma reaches_traces (rounds : nat) (a : Args.t) (AT : vec -> vec)
    (am : option Q) (sqrty : vec) (s s' : St.t) :
  reaches Qlog Qsqrt toc rounds a AT am sqrty s s' ->
  (1 <= s.(St.itern))%Z ->
  length s'.(St.objective) = length s.(St.objective)
  /\ length s'.(St.cputime) = length s.(St.cputime)
  /\ nth 0 s'.(St.objective) 0 = nth 0 s.(St.objective) 0
  /\ nth 0 s'.(St.cputime) 0 = nth 0 s.(St.cputime) 0
  /\ (forall r', s'.(St.reconerror) = Some r' ->
        exists r, s.(St.reconerror) = Some r /\ length r' = length r
                  /\ nth 0 r' 0 = nth 0 r 0).
Proof.
  intros R. induction R as [s|s s' s'' G It R IH]; intros Hi.
  - repeat split; try reflexivity. intros r' Hr'. exists r'. auto.
  - pose proof (iteration_itern _ _ _ _ _ _ _ It) as Hn.
    apply iteration_traces in It.
    destruct It as (L1 & L2 & Hrec & H0). destruct (H0 Hi) as [N1 N2].
    destruct IH as (L1' & L2' & N1' & N2' & Hrec'); [lia|].
    repeat split; try congruence.
    intros r'' Hr''. destruct (Hrec' _ Hr'') as (r' & Hr' & Ll & Nn).
    destruct (Hrec _ Hr') as (r & Hr & Ll' & Nn').
    exists r. repeat split; try congruence. rewrite Nn. auto.
Qed.

(** C6 (amended).  The loop runs while [itern <= miniter] or
    ([itern <= maxiter] and not [converged]).  Every run that returns has
    [miniter <= iterations]; if the counter [itern] starts at most at
    [maxiter + 1] (its default is 1), also [iterations <= maxiter]. *)
Theorem SPIRALTAP_iterations_bounds :
  forall (version : python) (fuel : nat) (a : Args.t) (x : vec) (out : Out.t),
    SPIRALTAP Qlog Qsqrt toc version fuel a = Ok (x, out) ->
    (forall n rounds AT am sqrty s,
        main_loop Qlog Qsqrt toc (S n) rounds a AT am sqrty s =
        if (s.(St.itern) <=? a.(Args.miniter))%Z
           || ((s.(St.itern) <=? a.(Args.maxiter))%Z && negb s.(St.converged))
        then s' <- iteration Qlog Qsqrt toc rounds a AT am sqrty s ;;
             main_loop Qlog Qsqrt toc n rounds a AT am sqrty s'
        else Ok s)
    /\ (a.(Args.miniter) <= out.(Out.iterations))%Z
    /\ ((a.(Args.itern) <= a.(Args.maxiter) + 1)%Z ->
        (out.(Out.iterations) <= a.(Args.maxiter))%Z).
Proof.
  intros version fuel a x out H. split; [reflexivity|].
  apply SPIRALTAP_Ok in H.
  destruct H as (am & AT & sqrty & s0 & sf & _ & Hc & _ & Hi & Hl & Hp).
  apply check_inputs_bounds in Hc.
  apply initialize_Ok in Hi. destruct Hi as (Hi & _).
  apply main_loop_reaches in Hl. destruct Hl as [R G].
  apply guard_false in G. destruct G as [G _].
  apply reaches_itern in R; [|lia]. destruct R as [_ R].
  apply post_process_Ok in Hp. destruct Hp as (_ & -> & _).
  split; [lia|]. intros Hs. rewrite Hi in R. specialize (R Hs). lia.
Qed.

(** C4.  When the counter starts at its default 1, a returning run hands
    back each enabled trace with exactly [iterations] entries (the slice
    [[0:itern]] after [itern = itern - 1]), one fewer than the
    [iterations + 1] that the header of the source documents; entry 0 is the
    value at the initializer. *)
Theorem SPIRALTAP_trace_lengths :
  forall (version : python) (fuel : nat) (a : Args.t) (x : vec) (out : Out.t),
    a.(Args.itern) = 1%Z ->
    SPIRALTAP Qlog Qsqrt toc version fuel a = Ok (x, out) ->
    exists AT,
      a.(Args.AT) = Some AT
      /\ let xinit := match a.(Args.initialization) with
                      | None => AT a.(Args.y)
                      | Some v => v
                      end in
         (a.(Args.saveobjective) = true ->
            exists tr o,
              out.(Out.objective) = Some tr
              /\ length tr = Z.to_nat out.(Out.iterations)
              /\ computeobjective Qlog xinit a.(Args.y) (a.(Args.A) xinit)
                   a.(Args.tau) a.(Args.noisetype) a.(Args.logepsilon)
                   a.(Args.penalty) a.(Args.WT) = Ok o
              /\ nth 0 tr 0 = o)
         /\ (a.(Args.savecputime) = true ->
               exists tr,
                 out.(Out.cputime) = Some tr
                 /\ length tr = Z.to_nat out.(Out.iterations)
                 /\ nth 0 tr 0 = 0)
         /\ (a.(Args.savereconerror) = true ->
               exists tr e,
                 out.(Out.reconerror) = Some tr
                 /\ length tr = Z.to_nat out.(Out.iterations)
                 /\ computereconerror Qsqrt a xinit = Ok e
                 /\ nth 0 tr 0 = e).
Proof.
  intros version fuel a x out H1 H.
  apply SPIRALTAP_Ok in H.
  destruct H as (am & AT & sqrty & s0 & sf & _ & Hc & _ & Hi & Hl & Hp).
  exists AT. split; [apply check_inputs_AT; exact Hc|]. cbv zeta.
  apply check_inputs_bounds in Hc.
  apply initialize_Ok in Hi. cbv zeta in Hi.
  destruct Hi as (Hi & _ & _ & _ & _ & _ & _ & Lo & Lc & Zc & Ho & Hr).
  apply main_loop_reaches in Hl. destruct Hl as [R G].
  apply guard_false in G. destruct G as [G _].
  destruct (reaches_itern _ _ _ _ _ _ _ (proj2 Hc) R) as [_ Hub].
  rewrite Hi, H1 in Hub. specialize (Hub ltac:(lia)).
  apply reaches_traces in R; [|lia].
  destruct R as (L1 & L2 & N1 & N2 & Hrec).
  apply post_process_Ok in Hp. destruct Hp as (_ & Hit & Hoo & Hoc & Hor).
  rewrite Hit.
  assert (Hlen : forall v, length v = Z.to_nat (a.(Args.maxiter) + 1) ->
                 length (slice0 v (sf.(St.itern) - 1))
                 = Z.to_nat (sf.(St.itern) - 1)).
  { intros v Hv. apply slice0_length. rewrite Hv. lia. }
  assert (Hnth : forall v, nth 0 (slice0 v (sf.(St.itern) - 1)) 0 = nth 0 v 0).
  { intros v. apply slice0_nth; lia. }
  split; [|split].
  - intros Hs. rewrite Hs in Hoo, Ho. destruct Ho as (o & Ho & Hg).
    rewrite H1 in Hg. apply getitem_nth in Hg; [|lia]. simpl in Hg.
    eexists; exists o. split; [exact Hoo|]. split; [|split].
    + apply Hlen. congruence.
    + exact Ho.
    + rewrite Hnth. congruence.
  - intros Hs. rewrite Hs in Hoc. eexists. split; [exact Hoc|]. split.
    + apply Hlen. congruence.
    + rewrite Hnth, N2. apply Zc.
  - intros Hs. rewrite Hs in Hor, Hr.
    destruct Hor as (rf & Hrf & Hout).
    destruct Hr as (r0 & e & Hr0 & Lr & He & Hg).
    destruct (Hrec _ Hrf) as (r & Hr & Ll & Nn).
    rewrite Hr0 in Hr. injection Hr as <-.
    rewrite H1 in Hg. apply getitem_nth in Hg; [|lia]. simpl in Hg.
    eexists; exists e. split; [exact Hout|]. split; [|split].
    + apply Hlen. congruence.
    + exact He.
    + rewrite Hnth. congruence.
Qed.

(** *** The step size *)






(** *** The objective trace under monotone acceptance *)

Lemma past_first (acceptpast : Z) :
  (0 <= acceptpast)%Z -> past 1 acceptpast = [0%Z].
Proof.
  intros H. unfold past. replace (Z.max (1 - 1 - acceptpast) 0) with 0%Z by lia.
  reflexivity.
Qed.

(** C10 (amended).  In the monotone Barzilai-Borwein branch every iteration
    stores the objective of its accepted candidate in [objective[itern]],
    whether or not [saveobjective] is set.  With [saveobjective = False] and
    the counter started at 1, entry 0 is the one that stays zero: it is zero
    wherever the loop passes, and it is what the first acceptance test takes
    as [maxpastobjective]. *)
Theorem monotone_objective_trace :
  forall (rounds : nat) (a : Args.t) (AT : vec -> vec) (am : option Q)
         (sqrty : vec) (s0 s s' : St.t),
    a.(Args.alphamethod) = 1%Z ->
    a.(Args.monotone) = true ->
    iteration Qlog Qsqrt toc rounds a AT am sqrty s = Ok s' ->
    (exists cand,
        computeobjective Qlog s'.(St.x) a.(Args.y) s'.(St.Ax) a.(Args.tau)
          a.(Args.noisetype) a.(Args.logepsilon) a.(Args.penalty) a.(Args.WT)
        = Ok cand
        /\ getitem s'.(St.objective) s.(St.itern) = Ok cand)
    /\ (a.(Args.saveobjective) = false ->
        a.(Args.itern) = 1%Z ->
        check_inputs a = Ok AT ->
        initialize Qlog Qsqrt a AT = Ok s0 ->
        reaches Qlog Qsqrt toc rounds a AT am sqrty s0 s ->
        nth 0 s.(St.objective) 0 = 0
        /\ nth 0 s'.(St.objective) 0 = 0
        /\ ((0 <= a.(Args.acceptpast))%Z ->
            maxpast s0.(St.objective) s0.(St.itern) a.(Args.acceptpast)
            = Ok 0)).
Proof.
  intros rounds a AT am sqrty s0 s s' Hmeth Hmono H. split.
  - apply iteration_Ok in H.
    destruct H as (sol & Hsol & _ & Hx & HAx & _ & _ & _ & Hobj & _).
    unfold compute_solution in Hsol. rewrite Hmeth, Hmono in Hsol.
    simpl in Hsol. inv_bind Hsol. apply backtracking_Ok in Hsol.
    destruct Hsol as (alpha' & obj' & Hr & _).
    apply backtracking_round_Ok in Hr.
    destruct Hr as (g & step & dx & Adx & cand & _ & _ & _ & _ & _ & _ & Hc
                    & Hset & _).
    exists cand. rewrite Hx, HAx, Hobj. split; [exact Hc|].
    eapply getitem_setitem; eauto.
  - intros Hsave H1 Hc Hi R. apply check_inputs_bounds in Hc.
    apply initialize_Ok in Hi. cbv zeta in Hi.
    destruct Hi as (Hi & _ & _ & _ & _ & _ & _ & Lo & _ & _ & Ho & _).
    rewrite Hsave in Ho.
    assert (Hs0 : (1 <= s0.(St.itern))%Z) by lia.
    pose proof (reaches_traces _ _ _ _ _ _ _ R Hs0) as (_ & _ & N & _).
    assert (Hs : (1 <= s.(St.itern))%Z).
    { clear - R Hs0. induction R as [s|s s1 s2 G It R IH]; [exact Hs0|].
      apply IH. apply iteration_itern in It. lia. }
    apply iteration_traces in H. destruct H as (_ & _ & _ & H).
    destruct (H Hs) as [N' _].
    split; [rewrite N; apply Ho|]. split; [rewrite N', N; apply Ho|].
    intros Hp. unfold maxpast. rewrite Hi, H1, past_first by exact Hp.
    simpl. unfold getitem. rewrite index_nonneg.
    + simpl. rewrite Ho. reflexivity.
    + rewrite Lo. lia.
Qed.

(** *** The acceptance test *)

Lemma maxpast_spec (objective : vec) (itern acceptpast : Z) (mp : Q) :
  maxpast objective itern acceptpast = Ok mp ->
  (forall k, (Z.max (itern - 1 - acceptpast) 0 <= k < itern)%Z ->
             nth (Z.to_nat k) objective 0 <= mp)
  /\ (exists k, (Z.max (itern - 1 - acceptpast) 0 <= k < itern)%Z
                /\ nth (Z.to_nat k) objective 0 = mp).
Proof.
  unfold maxpast, past. intros H. inv_bind H.
  apply take_nonneg in Hm; [|intros i Hi; apply in_arange in Hi; lia].
  apply vmax_spec in H. destruct H as [Hin Hall]. subst u. split.
  - intros k Hk. rewrite Forall_forall in Hall. apply Hall.
    apply in_map_iff. exists k. split; [reflexivity|]. apply in_arange. exact Hk.
  - apply in_map_iff in Hin. destruct Hin as [k [Hk Hin]].
    exists k. split; [apply in_arange; exact Hin|exact Hk].
Qed.

(** C1 (amended).  In the monotone Barzilai-Borwein branch the reference
    value [maxpastobjective] is the maximum of the
    [min(itern, acceptpast+1)] trace entries
    [objective[max(itern-1-acceptpast,0)] .. objective[itern-1]].  A round
    with step size [alpha] is accepted exactly when the objective of its
    candidate is at most
    [maxpastobjective - acceptdecrease*alpha/2*||dx||^2] or
    [alpha >= acceptalphamax]; a rejected round is followed by a round with
    [acceptmult*alpha], which recomputes the proximal step and the
    objective.  [acceptalphamax] is [alphamax] when the keyword is absent. *)
Theorem backtracking_acceptance :
  forall (fuel : nat) (a : Args.t) (am : Q) (s : St.t) (mp alpha : Q)
         (obj : vec) (acc : bool) (sol : Sol.t),
    maxpast s.(St.objective) s.(St.itern) a.(Args.acceptpast) = Ok mp ->
    backtracking_round Qlog a (Some am) s mp alpha obj = Ok (acc, sol) ->
    length (past s.(St.itern) a.(Args.acceptpast))
    = Z.to_nat (Z.min s.(St.itern) (a.(Args.acceptpast) + 1))
    /\ (forall k,
          (Z.max (s.(St.itern) - 1 - a.(Args.acceptpast)) 0 <= k < s.(St.itern))%Z ->
          nth (Z.to_nat k) s.(St.objective) 0 <= mp)
    /\ (exists k,
          (Z.max (s.(St.itern) - 1 - a.(Args.acceptpast)) 0 <= k < s.(St.itern))%Z
          /\ nth (Z.to_nat k) s.(St.objective) 0 = mp)
    /\ (exists dx cand,
          broadcast Qminus sol.(Sol.x) s.(St.xprevious) = Ok dx
          /\ computeobjective Qlog sol.(Sol.x) a.(Args.y) sol.(Sol.Ax)
               a.(Args.tau) a.(Args.noisetype) a.(Args.logepsilon)
               a.(Args.penalty) a.(Args.WT) = Ok cand
          /\ (acc = true <->
              cand <= mp - a.(Args.acceptdecrease) * alpha / 2
                           * vsum (map sq dx)
              \/ am <= alpha))
    /\ sol.(Sol.alpha) = a.(Args.acceptmult) * alpha
    /\ backtracking Qlog (S fuel) a (Some am) s mp alpha obj
       = (if acc then Ok sol
          else backtracking Qlog fuel a (Some am) s mp
                 (a.(Args.acceptmult) * alpha) sol.(Sol.objective))
    /\ (a.(Args.alphamethod) = 1%Z -> a.(Args.monotone) = true ->
        compute_solution Qlog fuel a (Some am) s
        = backtracking Qlog fuel a (Some am) s mp s.(St.alpha) s.(St.objective))
    /\ (has_key Py2 a.(Args.kwargs) "acceptalphamax" = Ok false ->
        input_parameters Py2 a = Ok (Some a.(Args.alphamax))).
Proof.
  intros fuel a am s mp alpha obj acc sol Hmp Hr.
  split; [|split; [|split; [|split; [|split; [|split; [|split]]]]]].
  - unfold past. rewrite arange_length. f_equal. lia.
  - apply maxpast_spec in Hmp. exact (proj1 Hmp).
  - apply maxpast_spec in Hmp. exact (proj2 Hmp).
  - apply backtracking_round_Ok in Hr.
    destruct Hr as (g & step & dx & Adx & cand & _ & _ & _ & Hdx & _ & _ & Hc
                    & _ & Hacc & _).
    exists dx, cand. split; [exact Hdx|]. split; [exact Hc|].
    eapply accepted_iff; eauto.
  - apply backtracking_round_Ok in Hr.
    destruct Hr as (g & step & dx & Adx & cand & _ & _ & _ & _ & _ & _ & _
                    & _ & _ & _ & _ & _ & H).
    exact H.
  - simpl. rewrite Hr. simpl.
    apply backtracking_round_Ok in Hr.
    destruct Hr as (g & step & dx & Adx & cand & _ & _ & _ & _ & _ & _ & _
                    & _ & _ & _ & _ & _ & ->).
    reflexivity.
  - intros Hmeth Hmono. unfold compute_solution.
    rewrite Hmeth, Hmono, Hmp. reflexivity.
  - intros Hk. unfold input_parameters. rewrite Hk. reflexivity.
Qed.

End Driver.

(** * Concrete runs *)


Lemma SPIRALTAP_trace_lengths_witness :
  exists x out tr,
    SPIRALTAP no_log no_sqrt ticks Py2 5 pixel_c = Ok (x, out)
    /\ out.(Out.iterations) = 1%Z
    /\ out.(Out.objective) = Some tr
    /\ length tr = Z.to_nat out.(Out.iterations).
Proof.
  assert (H : exists x out,
             SPIRALTAP no_log no_sqrt ticks Py2 5 pixel_c = Ok (x, out)
             /\ out.(Out.iterations) = 1%Z)
    by (eexists; eexists; split; vm_compute; reflexivity).
  destruct H as (x & out & H & Hit).
  destruct (SPIRALTAP_trace_lengths no_log no_sqrt ticks Py2 5 pixel_c x out
              eq_refl H) as (AT & _ & Hobj & _).
  destruct (Hobj eq_refl) as (tr & o & E & L & _).
  exists x, out, tr. auto.
Defined.

(** C6 (claim as stated).  A call that passes [itern=500] with
    [maxiter=100] and saves no trace skips the loop and returns
    [iterations = 499]. *)
Lemma SPIRALTAP_iterations_above_maxiter :
  exists x out,
    SPIRALTAP no_log no_sqrt ticks Py2 0
      (pixel 500 5 100 10 1 4 (1 # 2) false false) = Ok (x, out)
    /\ out.(Out.iterations) = 499%Z
    /\ ~ (5 <= out.(Out.iterations) <= 100)%Z.
Proof.
  eexists; eexists. split; [vm_compute; reflexivity|]. simpl.
  split; [reflexivity|lia].
Qed.

Lemma SPIRALTAP_iterations_bounds_witness :
  exists x out,
    SPIRALTAP no_log no_sqrt ticks Py2 5 pixel_a = Ok (x, out)
    /\ (pixel_a.(Args.miniter) <= out.(Out.iterations))%Z
    /\ (out.(Out.iterations) <= pixel_a.(Args.maxiter))%Z.
Proof.
  assert (H : exists x out,
             SPIRALTAP no_log no_sqrt ticks Py2 5 pixel_a = Ok (x, out))
    by (eexists; eexists; vm_compute; reflexivity).
  destruct H as (x & out & H).
  destruct (SPIRALTAP_iterations_bounds no_log no_sqrt ticks Py2 5 pixel_a x out
              H) as (_ & H1 & H2).
  exists x, out. split; [exact H|]. split; [exact H1|].
  apply H2. vm_compute. discriminate.
Defined.

(** C10 (claim as stated).  With [saveobjective = False], the window that
    the acceptance test of the second iteration of [pixel_b] reads holds the
    nonzero entry that the first iteration stored. *)
Lemma monotone_window_not_zero :
  pixel_b.(Args.saveobjective) = false
  /\ initialize no_log no_sqrt pixel_b (fun v => v) = Ok pixel_b0
  /\ iteration no_log no_sqrt ticks 5 pixel_b (fun v => v) (Some 1) [] pixel_b0
     = Ok pixel_b1
  /\ guard pixel_b pixel_b1 = true
  /\ take pixel_b1.(St.objective)
       (past pixel_b1.(St.itern) pixel_b.(Args.acceptpast)) = Ok [0; 1 # 8]
  /\ ~ Forall (fun q => q == 0) [0; 1 # 8].
Proof.
  repeat split; try (vm_compute; reflexivity).
  intros H. inversion H as [|q l _ H']. inversion H' as [|q' l' E _].
  vm_compute in E. discriminate E.
Qed.

Lemma monotone_objective_trace_witness :
  (exists cand,
      computeobjective no_log pixel_b1.(St.x) pixel_b.(Args.y) pixel_b1.(St.Ax)
        pixel_b.(Args.tau) pixel_b.(Args.noisetype) pixel_b.(Args.logepsilon)
        pixel_b.(Args.penalty) pixel_b.(Args.WT) = Ok cand
      /\ getitem pixel_b1.(St.objective) pixel_b0.(St.itern) = Ok cand)
  /\ nth 0 pixel_b1.(St.objective) 0 = 0
  /\ maxpast pixel_b0.(St.objective) pixel_b0.(St.itern)
       pixel_b.(Args.acceptpast) = Ok 0.
Proof.
  assert (H : iteration no_log no_sqrt ticks 5 pixel_b (fun v => v) (Some 1) []
                pixel_b0 = Ok pixel_b1) by (vm_compute; reflexivity).
  destruct (monotone_objective_trace no_log no_sqrt ticks 5 pixel_b
              (fun v => v) (Some 1) [] pixel_b0 pixel_b0 pixel_b1
              eq_refl eq_refl H) as [H1 H2].
  split; [exact H1|].
  assert (Hc : check_inputs pixel_b = Ok (fun v => v))
    by (vm_compute; reflexivity).
  assert (Hi : initialize no_log no_sqrt pixel_b (fun v => v) = Ok pixel_b0)
    by (vm_compute; reflexivity).
  destruct (H2 eq_refl eq_refl Hc Hi
              (reaches_here no_log no_sqrt ticks 5 pixel_b (fun v => v)
                 (Some 1) [] pixel_b0)) as (_ & H3 & H4).
  split; [exact H3|]. apply H4. vm_compute. discriminate.
Defined.

(** C1 (claim as stated).  In the second iteration of [pixel_a]
    ([itern = 2], [acceptpast = 1]) the first round is accepted, although
    its objective exceeds the bound taken over the last
    [min(itern-1, acceptpast) = 1] iteration and [alpha] is below
    [acceptalphamax]: the code compares with the maximum over entries 0 and
    1. *)
Lemma acceptance_window_counterexample :
  exists mp claimed sol dx cand,
    iteration no_log no_sqrt ticks 5 pixel_a (fun v => v) (Some 4) [] pixel_a0
    = Ok pixel_a1
    /\ guard pixel_a pixel_a1 = true
    /\ maxpast pixel_a1.(St.objective) pixel_a1.(St.itern)
         pixel_a.(Args.acceptpast) = Ok mp
    /\ backtracking_round no_log pixel_a (Some 4) pixel_a1 mp
         pixel_a1.(St.alpha) pixel_a1.(St.objective) = Ok (true, sol)
    /\ broadcast Qminus sol.(Sol.x) pixel_a1.(St.xprevious) = Ok dx
    /\ computeobjective no_log sol.(Sol.x) pixel_a.(Args.y) sol.(Sol.Ax)
         pixel_a.(Args.tau) pixel_a.(Args.noisetype) pixel_a.(Args.logepsilon)
         pixel_a.(Args.penalty) pixel_a.(Args.WT) = Ok cand
    /\ claimed_maxpast pixel_a1.(St.objective) pixel_a1.(St.itern)
         pixel_a.(Args.acceptpast) = Ok claimed
    /\ ~ (cand <= claimed - pixel_a.(Args.acceptdecrease) * pixel_a1.(St.alpha)
                            / 2 * vsum (map sq dx)
          \/ pixel_a.(Args.alphamax) <= pixel_a1.(St.alpha)).
Proof.
  eexists; eexists; eexists; eexists; eexists.
  split; [vm_compute; reflexivity|].
  split; [vm_compute; reflexivity|].
  split; [vm_compute; reflexivity|].
  split; [vm_compute; reflexivity|].
  split; [vm_compute; reflexivity|].
  split; [vm_compute; reflexivity|].
  split; [vm_compute; reflexivity|].
  intros [H|H]; vm_compute in H; apply H; reflexivity.
Qed.

Lemma backtracking_acceptance_witness :
  exists mp sol dx cand,
    maxpast pixel_a0.(St.objective) pixel_a0.(St.itern)
      pixel_a.(Args.acceptpast) = Ok mp
    /\ backtracking_round no_log pixel_a (Some 4) pixel_a0 mp (1 # 2)
         pixel_a0.(St.objective) = Ok (true, sol)
    /\ broadcast Qminus sol.(Sol.x) pixel_a0.(St.xprevious) = Ok dx
    /\ computeobjective no_log sol.(Sol.x) pixel_a.(Args.y) sol.(Sol.Ax)
         pixel_a.(Args.tau) pixel_a.(Args.noisetype) pixel_a.(Args.logepsilon)
         pixel_a.(Args.penalty) pixel_a.(Args.WT) = Ok cand
    /\ (cand <= mp - pixel_a.(Args.acceptdecrease) * (1 # 2) / 2
                     * vsum (map sq dx)
        \/ 4 <= 1 # 2)
    /\ nth 0 pixel_a0.(St.objective) 0 = mp.
Proof.
  assert (H : exists mp sol,
             maxpast pixel_a0.(St.objective) pixel_a0.(St.itern)
               pixel_a.(Args.acceptpast) = Ok mp
             /\ backtracking_round no_log pixel_a (Some 4) pixel_a0 mp (1 # 2)
                  pixel_a0.(St.objective) = Ok (true, sol))
    by (eexists; eexists; split; vm_compute; reflexivity).
  destruct H as (mp & sol & Hmp & Hr).
  destruct (backtracking_acceptance no_log 1 pixel_a 4 pixel_a0 mp (1 # 2)
              pixel_a0.(St.objective) true sol Hmp Hr)
    as (_ & _ & (k & Hk & Hnth) & (dx & cand & Hdx & Hc & Hiff) & _).
  exists mp, sol, dx, cand. repeat split; try assumption.
  - apply Hiff. reflexivity.
  - replace k with 0%Z in Hnth; [exact Hnth|].
    unfold pixel_a0, pixel_a, pixel in Hk. simpl in Hk. lia.
Defined.

(** * Further properties of the driver *)

Section Runs.

Variable Qlog : Q -> Q.
Variable Qsqrt : Q -> Q.
Variable toc : Z -> Q.

(** Where the loop has moved on, it arrived by an iteration. *)
Lemma reaches_last (rounds : nat) (a : Args.t) (AT : vec -> vec)
    (am : option Q) (sqrty : vec) (s0 sf : St.t) :
  reaches Qlog Qsqrt toc rounds a AT am sqrty s0 sf ->
  sf = s0
  \/ exists s, reaches Qlog Qsqrt toc rounds a AT am sqrty s0 s
               /\ guard a s = true
               /\ iteration Qlog Qsqrt toc rounds a AT am sqrty s = Ok sf.
Proof.
  intros R. induction R as [s|s s' s'' G It R IH].
  - left. reflexivity.
  - right. destruct IH as [->|(t & Rt & Gt & Ht)].
    + exists s. split; [constructor|]. split; assumption.
    + exists t. split; [econstructor; eauto|]. split; assumption.
Qed.

(** A run whose counter starts at most at [miniter] executes the body at
    least once, and its last iteration is one with [itern >= miniter]. *)
Lemma main_loop_last (fuel rounds : nat) (a : Args.t) (AT : vec -> vec)
    (am : option Q) (sqrty : vec) (s0 sf : St.t) :
  (s0.(St.itern) <= a.(Args.miniter))%Z ->
  main_loop Qlog Qsqrt toc fuel rounds a AT am sqrty s0 = Ok sf ->
  exists s, reaches Qlog Qsqrt toc rounds a AT am sqrty s0 s
            /\ iteration Qlog Qsqrt toc rounds a AT am sqrty s = Ok sf
            /\ (a.(Args.miniter) <= s.(St.itern))%Z
            /\ guard a sf = false.
Proof.
  intros H0 H. apply main_loop_reaches in H. destruct H as [R G].
  pose proof (guard_false _ _ G) as [Gm _].
  destruct (reaches_last _ _ _ _ _ _ _ R) as [->|(s & Rs & Gs & Hs)]; [lia|].
  exists s. repeat split; try assumption.
  apply iteration_itern in Hs. lia.
Qed.

(** An iteration that completes ran one of the two step-size methods with
    the canonical penalty and without the solution path. *)
Lemma iteration_configuration (rounds : nat) (a : Args.t) (AT : vec -> vec)
    (am : option Q) (sqrty : vec) (s s' : St.t) :
  iteration Qlog Qsqrt toc rounds a AT am sqrty s = Ok s' ->
  (a.(Args.alphamethod) = 0 \/ a.(Args.alphamethod) = 1)%Z
  /\ lower a.(Args.penalty) = "canonical"%string
  /\ a.(Args.savesolutionpath) = false
  /\ Forall (fun q => 0 <= q) s'.(St.x).
Proof.
  intros H. apply iteration_Ok in H.
  destruct H as (sol & Hsol & _ & Hx & _ & _ & _ & _ & _ & _ & _ & Hpath & _
                 & (dx & now & Hdx & _)).
  assert (Hm : (a.(Args.alphamethod) = 0 \/ a.(Args.alphamethod) = 1)%Z).
  { unfold compute_solution in Hsol.
    destruct (Z.eqb_spec a.(Args.alphamethod) 0); [left; assumption|].
    destruct (Z.eqb_spec a.(Args.alphamethod) 1); [right; assumption|].
    injection Hsol as <-. discriminate Hdx. }
  destruct (compute_solution_x _ _ _ _ _ _ Hm Hsol) as (step & alpha & Hc).
  split; [exact Hm|]. split; [|split; [exact Hpath|]].
  - unfold computesubsolution in Hc.
    destruct (String.eqb_spec (lower a.(Args.penalty)) "canonical");
      [assumption|discriminate].
  - rewrite Hx. eapply computesubsolution_nonneg; eauto.
Qed.

(** X1.  What a call that returns must have been given, when its counter
    starts at most at [miniter] (the default 1 does): Python 2, a known
    noise model, the canonical penalty, a step-size method 0 or 1, no
    recentering, no solution path, and a stopping criterion other than 5
    and 6. *)
Theorem SPIRALTAP_returns_only_if :
  forall (version : python) (fuel : nat) (a : Args.t) (r : vec * Out.t),
    (a.(Args.itern) <= a.(Args.miniter))%Z ->
    SPIRALTAP Qlog Qsqrt toc version fuel a = Ok r ->
    version = Py2
    /\ (lower a.(Args.noisetype) = "poisson"%string
        \/ lower a.(Args.noisetype) = "gaussian"%string)
    /\ lower a.(Args.penalty) = "canonical"%string
    /\ (a.(Args.alphamethod) = 0 \/ a.(Args.alphamethod) = 1)%Z
    /\ a.(Args.recenter) = false
    /\ a.(Args.savesolutionpath) = false
    /\ a.(Args.stopcriterion) <> 5%Z /\ a.(Args.stopcriterion) <> 6%Z.
Proof.
  intros version fuel a r Hstart H. apply SPIRALTAP_Ok in H.
  destruct H as (am & AT & sqrty & s0 & sf & Hin & Hc & _ & Hi & Hl & _).
  split.
  { destruct version; [reflexivity|discriminate Hin]. }
  split.
  { unfold check_inputs in Hc.
    destruct (String.eqb_spec (lower a.(Args.noisetype)) "poisson");
      [left; assumption|].
    destruct (String.eqb_spec (lower a.(Args.noisetype)) "gaussian");
      [right; assumption|].
    discriminate Hc. }
  assert (Hrec : a.(Args.recenter) = false).
  { unfold initialize in Hi. destruct a.(Args.recenter);
      [discriminate|reflexivity]. }
  apply initialize_Ok in Hi. destruct Hi as (Hi & _).
  apply main_loop_last in Hl; [|lia].
  destruct Hl as (s & _ & Hs & Hge & _).
  destruct (iteration_configuration _ _ _ _ _ _ _ Hs) as (Hm & Hp & Hpath & _).
  repeat split; try assumption.
  - intros E. apply iteration_Ok in Hs.
    destruct Hs as (sol & _ & _ & _ & _ & _ & _ & _ & _ & _ & _ & _ & _
                    & (dx & now & _ & _ & Hconv)).
    unfold checkconvergence in Hconv. apply Z.leb_le in Hge.
    rewrite Hge, E in Hconv. discriminate Hconv.
  - intros E. apply iteration_Ok in Hs.
    destruct Hs as (sol & _ & _ & _ & _ & _ & _ & _ & _ & _ & _ & _ & _
                    & (dx & now & _ & _ & Hconv)).
    unfold checkconvergence in Hconv. apply Z.leb_le in Hge.
    rewrite Hge, E in Hconv. discriminate Hconv.
Qed.

(** X2.  The signal that a run hands back is the last proximal point plus
    [mu]: when the counter starts at most at [miniter], every entry is at
    least [mu], hence nonnegative for the default [mu = 0]. *)
Theorem SPIRALTAP_signal_lower_bound :
  forall (version : python) (fuel : nat) (a : Args.t) (x : vec) (out : Out.t),
    (a.(Args.itern) <= a.(Args.miniter))%Z ->
    SPIRALTAP Qlog Qsqrt toc version fuel a = Ok (x, out) ->
    Forall (fun q => a.(Args.mu) <= q) x.
Proof.
  intros version fuel a x out Hstart H. apply SPIRALTAP_Ok in H.
  destruct H as (am & AT & sqrty & s0 & sf & _ & _ & _ & Hi & Hl & Hp).
  apply initialize_Ok in Hi. destruct Hi as (Hi & _).
  apply main_loop_last in Hl; [|lia].
  destruct Hl as (s & _ & Hs & _).
  destruct (iteration_configuration _ _ _ _ _ _ _ Hs) as (_ & _ & _ & Hx).
  apply post_process_Ok in Hp. destruct Hp as (-> & _).
  apply Forall_forall. intros q Hq. apply in_map_iff in Hq.
  destruct Hq as (p & <- & Hp). rewrite Forall_forall in Hx.
  specialize (Hx p Hp).
  rewrite <- (Qplus_0_l a.(Args.mu)) at 1.
  apply Qplus_le_compat; [exact Hx|apply Qle_refl].
Qed.

(** X3.  With the stopping criterion 1 (the default) the check never
    signals convergence, so a run whose counter starts at most at [miniter]
    uses the whole budget: [iterations = maxiter]. *)
Theorem SPIRALTAP_exhausts_budget :
  forall (version : python) (fuel : nat) (a : Args.t) (x : vec) (out : Out.t),
    a.(Args.stopcriterion) = 1%Z ->
    (a.(Args.itern) <= a.(Args.miniter))%Z ->
    SPIRALTAP Qlog Qsqrt toc version fuel a = Ok (x, out) ->
    out.(Out.iterations) = a.(Args.maxiter).
Proof.
  intros version fuel a x out Hsc Hstart H.
  apply SPIRALTAP_Ok in H.
  destruct H as (am & AT & sqrty & s0 & sf & _ & Hc & _ & Hi & Hl & Hp).
  apply check_inputs_bounds in Hc.
  apply initialize_Ok in Hi. destruct Hi as (Hi & _).
  pose proof (main_loop_reaches _ _ _ _ _ _ _ _ _ _ _ Hl) as [R _].
  destruct (reaches_itern _ _ _ _ _ _ _ _ _ _ (proj2 Hc) R) as [_ Hub].
  apply main_loop_last in Hl; [|lia].
  destruct Hl as (s & _ & Hs & _ & G).
  apply iteration_Ok in Hs.
  destruct Hs as (sol & _ & _ & _ & _ & _ & _ & _ & _ & _ & _ & _ & _
                  & (dx & now & _ & _ & Hconv)).
  unfold checkconvergence in Hconv. rewrite Hsc in Hconv.
  assert (Hf : sf.(St.converged) = false).
  { destruct (a.(Args.miniter) <=? s.(St.itern))%Z; simpl in Hconv;
      injection Hconv as <-; reflexivity. }
  apply guard_false in G. destruct G as [_ [G|G]]; [|congruence].
  apply post_process_Ok in Hp. destruct Hp as (_ & Hit & _).
  assert (Hub' : (sf.(St.itern) <= a.(Args.maxiter) + 1)%Z) by (apply Hub; lia).
  lia.
Qed.

End Runs.

(** ** Termination *)

Lemma bind_finishes {T U : Type} (m : result T) (k : T -> result U) :
  finishes m -> (forall v, m = Ok v -> finishes (k v)) -> finishes (bind m k).
Proof.
  unfold finishes. destruct m as [v| | |]; simpl; intros Hm Hk.
  - apply Hk. reflexivity.
  - discriminate.
  - congruence.
  - discriminate.
Qed.

Lemma Ok_finishes {T : Type} (v : T) : finishes (Ok v).
Proof. discriminate. Qed.

Lemma Raise_finishes {T : Type} (e : exn) : finishes (@Raise T e).
Proof. discriminate. Qed.

Lemma NonFinite_finishes {T : Type} : finishes (@NonFinite T).
Proof. discriminate. Qed.

Lemma reraise_finishes {T : Type} (e : exn) (m : result T) :
  finishes m -> finishes (reraise e m).
Proof. unfold finishes. destruct m; simpl; congruence. Qed.

Lemma bound_finishes {T : Type} (o : option T) : finishes (bound o).
Proof. destruct o; discriminate. Qed.

Lemma broadcast_finishes (f : Q -> Q -> Q) (a b : vec) :
  finishes (broadcast f a b).
Proof.
  unfold broadcast. destruct (Nat.eqb _ _); [discriminate|].
  destruct a as [|u [|u' a]]; destruct b as [|v [|v' b]]; discriminate.
Qed.

Lemma getitem_finishes (v : vec) (i : Z) : finishes (getitem v i).
Proof. unfold getitem. destruct (index _ _); discriminate. Qed.

Lemma setitem_finishes (v : vec) (i : Z) (q : Q) : finishes (setitem v i q).
Proof. unfold setitem. destruct (index _ _); discriminate. Qed.

Lemma zeros_finishes (n : Z) : finishes (zeros n).
Proof. unfold zeros. destruct (_ <? _)%Z; discriminate. Qed.

Lemma vmax_finishes (v : vec) : finishes (vmax v).
Proof. destruct v; discriminate. Qed.

Lemma vmin_finishes (v : vec) : finishes (vmin v).
Proof. destruct v; discriminate. Qed.

Lemma take_finishes (v : vec) (idx : list Z) : finishes (take v idx).
Proof.
  induction idx as [|i idx IH]; simpl; [discriminate|].
  apply bind_finishes; [apply getitem_finishes|]. intros q _.
  apply bind_finishes; [exact IH|]. intros r _. discriminate.
Qed.

Lemma vec_sub_finishes (v : vec) (w : operand) : finishes (vec_sub v w).
Proof. destruct w; simpl; [discriminate|apply broadcast_finishes]. Qed.

Lemma operand_mul_finishes (w : operand) (v : vec) :
  finishes (operand_mul w v).
Proof. destruct w; simpl; [discriminate|apply broadcast_finishes]. Qed.

Lemma grad_div_finishes (g : gradient) (alpha : Q) :
  finishes (grad_div g alpha).
Proof.
  unfold grad_div. destruct g as [[[|q g]|]|]; try discriminate.
  destruct (Qeq_bool alpha 0); discriminate.
Qed.

Lemma keep_finishes (m : result (option vec)) : finishes m -> finishes (keep m).
Proof. unfold finishes. destruct m; simpl; congruence. Qed.

Lemma divide_finishes (a b : vec) : finishes (divide a b).
Proof.
  unfold divide. apply bind_finishes; [apply broadcast_finishes|].
  intros r _. destruct (empty r || forallb nonzero b); discriminate.
Qed.

Create HintDb finishes.

#[local] Hint Resolve Ok_finishes Raise_finishes NonFinite_finishes
  bound_finishes
  broadcast_finishes getitem_finishes setitem_finishes zeros_finishes
  vmax_finishes vmin_finishes take_finishes vec_sub_finishes
  operand_mul_finishes grad_div_finishes divide_finishes reraise_finishes
  keep_finishes : finishes.

(** Peels binds, conditionals and matches off a straight-line body. *)
Ltac straight_line :=
  repeat first
    [ solve [auto with finishes]
    | match goal with
      | |- finishes (bind _ _) => apply bind_finishes; [|intros ? _]
      end
    | progress (unfold todo)
    | progress (cbv zeta)
    | match goal with
      | |- finishes (if ?c then _ else _) => destruct c
      | |- finishes (match ?x with _ => _ end) => destruct x
      end ].

Lemma computegrad_finishes (y Ax : vec) (AT : vec -> vec) (noisetype : string)
    (logepsilon : Q) : finishes (computegrad y Ax AT noisetype logepsilon).
Proof. unfold computegrad. straight_line. Qed.

Lemma computesubsolution_finishes (step : vec) (tau : operand) (alpha : Q)
    (penalty : string) (mu : Q) :
  finishes (computesubsolution step tau alpha penalty mu).
Proof. unfold computesubsolution. straight_line. Qed.

Lemma checkconvergence_finishes (itern miniter stopcriterion : Z)
    (tolerance : Q) (dx x : vec) (cputime : Q) (objective : vec) :
  finishes (checkconvergence itern miniter stopcriterion tolerance dx x
              cputime objective).
Proof. unfold checkconvergence. straight_line. Qed.

Lemma bb_gamma_finishes (a : Args.t) (sqrty Adx Ax : vec) :
  finishes (bb_gamma a sqrty Adx Ax).
Proof.
  unfold bb_gamma. destruct (String.eqb _ _); [|discriminate].
  apply bind_finishes; [apply broadcast_finishes|]. intros n _.
  pose proof (divide_finishes n (map (fun q => q + a.(Args.logepsilon)) Ax))
    as D.
  destruct (divide n _); [discriminate|discriminate| |discriminate].
  exfalso. apply D. reflexivity.
Qed.

#[local] Hint Resolve computegrad_finishes computesubsolution_finishes
  checkconvergence_finishes bb_gamma_finishes : finishes.

Lemma update_alpha_finishes (a : Args.t) (sqrty : vec) (sol : Sol.t) :
  finishes (update_alpha a sqrty sol).
Proof. unfold update_alpha. straight_line. Qed.

Lemma accepted_finishes (a : Args.t) (am : option Q) (c mp alpha n : Q) :
  finishes (accepted a am c mp alpha n).
Proof. unfold accepted. straight_line. Qed.

Lemma check_inputs_finishes (a : Args.t) : finishes (check_inputs a).
Proof. unfold check_inputs. straight_line. Qed.

Lemma post_process_finishes (a : Args.t) (s : St.t) :
  finishes (post_process a s).
Proof. unfold post_process. straight_line. Qed.

Lemma input_parameters_finishes (version : python) (a : Args.t) :
  finishes (input_parameters version a).
Proof.
  unfold input_parameters, has_key. destruct version; simpl;
    [destruct (negb _)|]; discriminate.
Qed.

#[local] Hint Resolve update_alpha_finishes accepted_finishes
  check_inputs_finishes post_process_finishes input_parameters_finishes
  : finishes.

Section Termination.

Variable Qlog : Q -> Q.
Variable Qsqrt : Q -> Q.
Variable toc : Z -> Q.

Lemma computeobjective_finishes (x y Ax : vec) (tau : operand)
    (noisetype : string) (logepsilon : Q) (penalty : string)
    (WT : vec -> vec) :
  finishes (computeobjective Qlog x y Ax tau noisetype logepsilon penalty WT).
Proof.
  rewrite computeobjective_eq. straight_line.
Qed.

Lemma computereconerror_finishes (a : Args.t) (x : vec) :
  finishes (computereconerror Qsqrt a x).
Proof. unfold computereconerror. straight_line. Qed.

Lemma method_parameters_finishes (a : Args.t) :
  finishes (method_parameters Qsqrt a).
Proof. unfold method_parameters. straight_line. Qed.

Hint Resolve computeobjective_finishes computereconerror_finishes
  method_parameters_finishes : finishes.

Lemma initialize_finishes (a : Args.t) (AT : vec -> vec) :
  finishes (initialize Qlog Qsqrt a AT).
Proof. unfold initialize. straight_line. Qed.

Lemma backtracking_round_finishes (a : Args.t) (am : option Q) (s : St.t)
    (mp alpha : Q) (obj : vec) :
  finishes (backtracking_round Qlog a am s mp alpha obj).
Proof. unfold backtracking_round. straight_line. Qed.

(** *** The step size across an iteration *)

Lemma clamp_bounds (lo hi v : Q) :
  lo <= hi -> lo <= py_min hi (py_max v lo) <= hi.
Proof.
  intros H. unfold py_min, py_max.
  destruct (Qltb v lo) eqn:E1.
  - destruct (Qltb lo hi) eqn:E2.
    + split; [apply Qle_refl|exact H].
    + split; [exact H|apply Qle_refl].
  - apply Qltb_ge in E1. destruct (Qltb v hi) eqn:E2.
    + apply Qltb_lt in E2. split; [exact E1|apply Qlt_le_weak; exact E2].
    + split; [exact H|apply Qle_refl].
Qed.

Lemma iteration_alpha (rounds : nat) (a : Args.t) (AT : vec -> vec)
    (am : option Q) (sqrty : vec) (s s' : St.t) :
  iteration Qlog Qsqrt toc rounds a AT am sqrty s = Ok s' ->
  (a.(Args.alphamethod) = 1%Z -> a.(Args.alphamin) <= a.(Args.alphamax) ->
   a.(Args.alphamin) <= s'.(St.alpha) <= a.(Args.alphamax))
  /\ (a.(Args.alphamethod) = 0%Z -> s'.(St.alpha) = s.(St.alpha)).
Proof.
  intros H. apply iteration_Ok in H.
  destruct H as (sol & Hsol & Hup & _). split.
  - intros Hm Hle. unfold update_alpha in Hup. rewrite Hm in Hup.
    simpl in Hup. inv_bind Hup. inv_bind Hup.
    destruct u0 as [gamma|].
    + destruct (Qeq_bool gamma 0).
      * injection Hup as <-. split; [apply Qle_refl|exact Hle].
      * inv_bind Hup. destruct (Qeq_bool u0 0).
        -- injection Hup as <-. split; [exact Hle|apply Qle_refl].
        -- injection Hup as <-. apply clamp_bounds. exact Hle.
    + inv_bind Hup. injection Hup as <-. split; [exact Hle|apply Qle_refl].
  - intros Hm. unfold update_alpha in Hup. rewrite Hm in Hup. simpl in Hup.
    injection Hup as <-. unfold compute_solution in Hsol.
    rewrite Hm in Hsol. simpl in Hsol.
    inv_bind Hsol. inv_bind Hsol. inv_bind Hsol. inv_bind Hsol.
    injection Hsol as <-. reflexivity.
Qed.

(** X4.  The step size that an iteration leaves for the next one: under
    the Barzilai-Borwein method it lies in [[alphamin, alphamax]] whenever
    [alphamin <= alphamax]; under the constant method it is the step size
    the iteration started with. *)
Theorem iteration_step_size :
  forall (rounds : nat) (a : Args.t) (AT : vec -> vec) (am : option Q)
         (sqrty : vec) (s s' : St.t),
    iteration Qlog Qsqrt toc rounds a AT am sqrty s = Ok s' ->
    (a.(Args.alphamethod) = 1%Z -> a.(Args.alphamin) <= a.(Args.alphamax) ->
     a.(Args.alphamin) <= s'.(St.alpha) <= a.(Args.alphamax))
    /\ (a.(Args.alphamethod) = 0%Z -> s'.(St.alpha) = s.(St.alpha)).
Proof.
  intros rounds a AT am sqrty s s'. apply iteration_alpha.
Qed.

(** *** The backtracking loop *)

Lemma iter_mult_monotone (k : nat) (m lo alpha : Q) :
  0 <= m -> lo <= alpha ->
  Nat.iter k (Qmult m) lo <= Nat.iter k (Qmult m) alpha.
Proof.
  intros Hm H. induction k as [|k IH]; simpl; [exact H|].
  rewrite (Qmult_comm m (Nat.iter k _ lo)), (Qmult_comm m (Nat.iter k _ alpha)).
  apply Qmult_le_compat_r; assumption.
Qed.

Lemma backtracking_forced (k : nat) :
  forall (n : nat) (a : Args.t) (am : Q) (s : St.t) (mp alpha : Q)
         (obj : vec),
    am <= Nat.iter k (Qmult a.(Args.acceptmult)) alpha ->
    (k < n)%nat ->
    finishes (backtracking Qlog n a (Some am) s mp alpha obj).
Proof.
  induction k as [|k IH]; intros n a am s mp alpha obj Hb Hn;
    (destruct n as [|n]; [lia|]); simpl;
    (apply bind_finishes; [apply backtracking_round_finishes|]);
    intros [acc sol] Hr; simpl; (destruct acc; [apply Ok_finishes|]).
  - exfalso. apply backtracking_round_Ok in Hr.
    destruct Hr as (g & step & dx & Adx & cand & _ & _ & _ & _ & _ & _ & _
                    & _ & Hacc & _).
    apply accepted_iff in Hacc. simpl in Hb.
    assert (false = true) by (apply Hacc; right; exact Hb). discriminate.
  - apply IH; [|lia].
    apply backtracking_round_Ok in Hr.
    destruct Hr as (g & step & dx & Adx & cand & _ & _ & _ & _ & _ & _ & _
                    & _ & _ & _ & _ & _ & ->).
    rewrite <- Nat.iter_succ_r. exact Hb.
Qed.


(** X6.  When [acceptalphamax] is passed as a keyword the name is never
    bound: the first statement binds it only in the other case.  A round
    then either passes the sufficient-decrease test or raises
    [UnboundLocalError]; the step size is never multiplied and retried. *)
Theorem acceptalphamax_keyword_unbound :
  forall (fuel : nat) (a : Args.t) (s : St.t) (mp alpha : Q) (obj : vec),
    has_key Py2 a.(Args.kwargs) "acceptalphamax" = Ok true ->
    input_parameters Py2 a = Ok None
    /\ (forall c n,
           accepted a None c mp alpha n
           = if Qle_bool c (mp - a.(Args.acceptdecrease) * alpha / 2 * n)
             then Ok true else Raise UnboundLocalError)
    /\ (forall acc sol,
           backtracking_round Qlog a None s mp alpha obj = Ok (acc, sol) ->
           acc = true)
    /\ backtracking Qlog (S fuel) a None s mp alpha obj
       = backtracking Qlog 1 a None s mp alpha obj.
Proof.
  intros fuel a s mp alpha obj Hk.
  assert (Hacc : forall c n acc, accepted a None c mp alpha n = Ok acc ->
                                 acc = true).
  { intros c n acc. unfold accepted. destruct (Qle_bool _ _); simpl;
      [intros [= <-]; reflexivity|discriminate]. }
  assert (Hround : forall acc sol,
             backtracking_round Qlog a None s mp alpha obj = Ok (acc, sol) ->
             acc = true).
  { intros acc sol Hr. apply backtracking_round_Ok in Hr.
    destruct Hr as (g & step & dx & Adx & cand & _ & _ & _ & _ & _ & _ & _
                    & _ & Ha & _).
    eapply Hacc; eauto. }
  split; [unfold input_parameters; rewrite Hk; reflexivity|].
  split; [intros c n; unfold accepted; destruct (Qle_bool _ _); reflexivity|].
  split; [exact Hround|].
  simpl.
  destruct (backtracking_round Qlog a None s mp alpha obj) as [[acc sol]| | |]
    eqn:E; simpl; try reflexivity.
  rewrite (Hround acc sol eq_refl). reflexivity.
Qed.

Lemma backtracking_unbound_finishes (n : nat) (a : Args.t) (s : St.t)
    (mp alpha : Q) (obj : vec) :
  (0 < n)%nat -> finishes (backtracking Qlog n a None s mp alpha obj).
Proof.
  intros Hn. destruct n as [|n]; [lia|]. simpl.
  apply bind_finishes; [apply backtracking_round_finishes|].
  intros [acc sol] Hr. simpl.
  apply backtracking_round_Ok in Hr.
  destruct Hr as (g & step & dx & Adx & cand & _ & _ & _ & _ & _ & _ & _
                  & _ & Ha & _).
  unfold accepted in Ha. destruct (Qle_bool _ _); simpl in Ha;
    [|discriminate].
  injection Ha as <-. apply Ok_finishes.
Qed.

(** *** The whole run *)

Lemma iteration_finishes (rounds : nat) (a : Args.t) (AT : vec -> vec)
    (am : option Q) (sqrty : vec) (s : St.t) :
  finishes (compute_solution Qlog rounds a am s) ->
  finishes (iteration Qlog Qsqrt toc rounds a AT am sqrty s).
Proof.
  intros H. unfold iteration.
  apply bind_finishes; [exact H|]. intros sol _. straight_line.
Qed.

Lemma compute_solution_finishes (k rounds : nat) (a : Args.t) (am : option Q)
    (s : St.t) :
  (k < rounds)%nat ->
  (forall v, am = Some v -> a.(Args.alphamethod) = 1%Z ->
             a.(Args.monotone) = true ->
             v <= Nat.iter k (Qmult a.(Args.acceptmult)) s.(St.alpha)) ->
  finishes (compute_solution Qlog rounds a am s).
Proof.
  intros Hk Hb. unfold compute_solution.
  destruct (Z.eqb_spec a.(Args.alphamethod) 0); [straight_line|].
  destruct (Z.eqb_spec a.(Args.alphamethod) 1); [|straight_line].
  destruct a.(Args.monotone) eqn:Hmono; [|straight_line].
  apply bind_finishes; [unfold maxpast; straight_line|]. intros mp _.
  destruct am as [v|].
  - eapply backtracking_forced; [|exact Hk]. auto.
  - apply backtracking_unbound_finishes. lia.
Qed.

Lemma main_loop_finishes (P : St.t -> Prop) (fuel rounds : nat) (a : Args.t)
    (AT : vec -> vec) (am : option Q) (sqrty : vec) :
  (a.(Args.miniter) <= a.(Args.maxiter))%Z ->
  (forall s, P s -> finishes (iteration Qlog Qsqrt toc rounds a AT am sqrty s)) ->
  (forall s s', P s ->
     iteration Qlog Qsqrt toc rounds a AT am sqrty s = Ok s' -> P s') ->
  forall s, P s ->
    (a.(Args.maxiter) + 1 - s.(St.itern) <= Z.of_nat fuel)%Z ->
    finishes (main_loop Qlog Qsqrt toc fuel rounds a AT am sqrty s).
Proof.
  intros Hmm Hfin Hstep. induction fuel as [|fuel IH]; intros s HP Hf; simpl.
  - destruct (guard a s) eqn:G; [|apply Ok_finishes].
    exfalso. unfold guard in G. apply orb_true_iff in G.
    destruct G as [G|G]; [|apply andb_true_iff in G]; lia.
  - destruct (guard a s) eqn:G; [|apply Ok_finishes].
    apply bind_finishes; [apply Hfin; exact HP|]. intros s' Hs'.
    apply IH; [eapply Hstep; eauto|].
    apply iteration_itern in Hs'. lia.
Qed.

(** X7.  The run ends.  Let [lo] be a floor of the initial and the minimal
    step size, [alphamin <= alphamax], [acceptmult >= 0], and let [k]
    multiplications by [acceptmult] take [lo] to [alphamax]; then fuel for
    more than [k] rounds and for the iterations up to [maxiter] suffices:
    [SPIRALTAP] returns or raises (or stops at a quotient by zero, where
    the model ends). *)
Theorem SPIRALTAP_terminates :
  forall (version : python) (fuel k : nat) (a : Args.t) (lo : Q),
    0 <= a.(Args.acceptmult) ->
    lo <= a.(Args.alphainit) -> lo <= a.(Args.alphamin) ->
    a.(Args.alphamin) <= a.(Args.alphamax) ->
    a.(Args.alphamax) <= Nat.iter k (Qmult a.(Args.acceptmult)) lo ->
    (k < fuel)%nat ->
    (a.(Args.maxiter) + 1 - a.(Args.itern) <= Z.of_nat fuel)%Z ->
    finishes (SPIRALTAP Qlog Qsqrt toc version fuel a).
Proof.
  intros version fuel k a lo Hmult Hinit Hmin Hle Hk Hfuel Hiter.
  unfold SPIRALTAP.
  apply bind_finishes; [apply input_parameters_finishes|]. intros am Ham.
  apply bind_finishes; [apply check_inputs_finishes|]. intros AT Hc.
  apply bind_finishes; [apply method_parameters_finishes|]. intros sqrty _.
  apply bind_finishes; [apply initialize_finishes|]. intros s0 Hi.
  apply bind_finishes; [|intros sf _; apply post_process_finishes].
  apply check_inputs_bounds in Hc.
  apply initialize_Ok in Hi. destruct Hi as (Hi & _ & _ & _ & _ & _ & Ha & _).
  assert (Ham' : forall v, am = Some v -> v = a.(Args.alphamax)).
  { intros v ->. unfold input_parameters in Ham. inv_bind Ham.
    destruct (negb u); congruence. }
  apply (main_loop_finishes (fun s => lo <= s.(St.alpha))).
  - lia.
  - intros s Hs. apply iteration_finishes.
    apply (compute_solution_finishes k); [exact Hfuel|].
    intros v Hv _ _. rewrite (Ham' v Hv).
    apply Qle_trans with (Nat.iter k (Qmult a.(Args.acceptmult)) lo);
      [exact Hk|].
    apply iter_mult_monotone; assumption.
  - intros s s' Hs Hs'.
    pose proof (iteration_configuration Qlog Qsqrt toc _ _ _ _ _ _ _ Hs')
      as (Hm & _).
    apply iteration_alpha in Hs'. destruct Hs' as [H1 H0].
    destruct Hm as [Hm|Hm].
    + rewrite (H0 Hm). exact Hs.
    + apply Qle_trans with a.(Args.alphamin); [exact Hmin|].
      apply (H1 Hm Hle).
  - rewrite Ha. exact Hinit.
  - rewrite Hi. exact Hiter.
Qed.

End Termination.

(** * Validation and the remaining helpers *)

Lemma fold_min (t : vec) (h : Q) :
  let r := fold_left (fun m q => if Qltb q m then q else m) t h in
  r <= h /\ Forall (fun q => r <= q) t.
Proof.
  revert h. induction t as [|q t IH]; intros h; simpl.
  - split; [apply Qle_refl|constructor].
  - destruct (IH (if Qltb q h then q else h)) as (Hle & Hall).
    destruct (Qltb q h) eqn:E.
    + apply Qltb_lt in E. split.
      * apply Qle_trans with q; [exact Hle|apply Qlt_le_weak; exact E].
      * constructor; assumption.
    + apply Qltb_ge in E. split; [exact Hle|].
      constructor; [apply Qle_trans with h; assumption|assumption].
Qed.

Lemma vmin_spec (w : vec) (m : Q) :
  vmin w = Ok m -> Forall (fun q => m <= q) w.
Proof.
  destruct w as [|h t]; simpl; [discriminate|].
  intros [= <-]. destruct (fold_min t h) as (Hle & Hall).
  constructor; assumption.
Qed.

Lemma vmin_nonempty (w : vec) : w <> [] -> exists m, vmin w = Ok m.
Proof.
  destruct w as [|h t]; [congruence|]. intros _. simpl. eauto.
Qed.

(** [q.round() == q] holds exactly for the integers. *)
Lemma Qround_even_fixed (q : Q) :
  Qeq_bool (Qround_even q) q = true <-> exists z, q == inject_Z z.
Proof.
  rewrite Qeq_bool_iff. split.
  - intros H. unfold Qround_even in H.
    destruct (Qltb _ _); [eexists; symmetry; exact H|].
    destruct (Qltb _ _); [eexists; symmetry; exact H|].
    destruct (Z.even _); eexists; symmetry; exact H.
  - intros [z Hz]. unfold Qround_even.
    assert (Hf : Qfloor q = z) by (rewrite Hz; apply Qfloor_Z).
    rewrite Hf.
    assert (Hr : Qltb (q - inject_Z z) (1 # 2) = true).
    { apply Qltb_lt. rewrite Hz. unfold Qminus. rewrite Qplus_opp_r.
      reflexivity. }
    rewrite Hr. symmetry. exact Hz.
Qed.

Section Checks.

Variable Qlog : Q -> Q.
Variable Qsqrt : Q -> Q.
Variable toc : Z -> Q.

(** X8.  Under Python 2 a call whose noise model or penalty name is
    unknown, whose [verbose], [logepsilon], [tolerance] or [subtolerance] is
    negative, or whose iteration bounds are not [1 <= miniter <= maxiter],
    raises [TypeError] before anything is computed. *)
Theorem SPIRALTAP_rejects_configuration :
  forall (fuel : nat) (a : Args.t),
    (lower a.(Args.noisetype) <> "poisson"%string
     /\ lower a.(Args.noisetype) <> "gaussian"%string)
    \/ ~ In (lower a.(Args.penalty))
            ["canonical"; "onb"; "rdp"; "rdp-ti"; "tv"]%string
    \/ (a.(Args.verbose) < 0)%Z
    \/ a.(Args.logepsilon) < 0 \/ a.(Args.tolerance) < 0
    \/ a.(Args.subtolerance) < 0
    \/ (a.(Args.miniter) <= 0)%Z \/ (a.(Args.maxiter) <= 0)%Z
    \/ (a.(Args.maxiter) < a.(Args.miniter))%Z ->
    SPIRALTAP Qlog Qsqrt toc Py2 fuel a = Raise TypeError.
Proof.
  intros fuel a H. unfold SPIRALTAP. simpl.
  replace (bind _ _) with
    (bind (check_inputs a)
       (fun AT => sqrty <- method_parameters Qsqrt a ;;
                  s <- initialize Qlog Qsqrt a AT ;;
                  s <- main_loop Qlog Qsqrt toc fuel fuel a AT
                         (if negb (existsb
                                     (fun kv => String.eqb (fst kv)
                                                  "acceptalphamax")
                                     a.(Args.kwargs))
                          then Some a.(Args.alphamax) else None) sqrty s ;;
                  post_process a s)).
  2:{ unfold input_parameters. simpl. destruct (negb _); reflexivity. }
  assert (Hc : check_inputs a = Raise TypeError); [|rewrite Hc; reflexivity].
  unfold check_inputs.
  destruct (String.eqb_spec (lower a.(Args.noisetype)) "poisson") as [E1|E1];
    destruct (String.eqb_spec (lower a.(Args.noisetype)) "gaussian") as [E2|E2];
    simpl; try reflexivity.
  all: destruct (String.eqb_spec (lower a.(Args.penalty)) "canonical") as [P1|P1];
    destruct (String.eqb_spec (lower a.(Args.penalty)) "onb") as [P2|P2];
    destruct (String.eqb_spec (lower a.(Args.penalty)) "rdp") as [P3|P3];
    destruct (String.eqb_spec (lower a.(Args.penalty)) "rdp-ti") as [P4|P4];
    destruct (String.eqb_spec (lower a.(Args.penalty)) "tv") as [P5|P5];
    simpl; try reflexivity.
  all: destruct (Z.ltb_spec a.(Args.verbose) 0); try reflexivity.
  all: destruct (Qltb a.(Args.logepsilon) 0) eqn:Q1; try reflexivity.
  all: destruct (Qltb a.(Args.tolerance) 0) eqn:Q2; try reflexivity.
  all: destruct (Qltb a.(Args.subtolerance) 0) eqn:Q3; try reflexivity.
  all: destruct (Z.leb_spec a.(Args.miniter) 0); simpl; try reflexivity.
  all: destruct (Z.leb_spec a.(Args.maxiter) 0); simpl; try reflexivity.
  all: destruct (Z.ltb_spec a.(Args.maxiter) a.(Args.miniter)); try reflexivity.
  all: exfalso; apply Qltb_ge in Q1, Q2, Q3;
    destruct H as [[Hna Hnb]|[H|[H|[H|[H|[H|[H|[H|H]]]]]]]];
    try congruence; try lia;
    try (apply (Qlt_not_le _ _ H); assumption);
    try (apply H; simpl; rewrite ?P1, ?P2, ?P3, ?P4, ?P5; tauto).
Qed.

(** X9.  The check of the subproblem iteration bounds cannot report its
    error: when everything before it is valid and
    [subminiter > submaxiter], building the message reads the undefined name
    [subbmaxiter] and the call raises [NameError]. *)
Theorem SPIRALTAP_subiteration_bounds :
  forall (fuel : nat) (a : Args.t),
    (lower a.(Args.noisetype) = "poisson"%string
     \/ lower a.(Args.noisetype) = "gaussian"%string) ->
    In (lower a.(Args.penalty)) ["canonical"; "onb"; "rdp"; "rdp-ti"; "tv"]%string ->
    (0 <= a.(Args.verbose))%Z ->
    0 <= a.(Args.logepsilon) -> 0 <= a.(Args.tolerance) ->
    0 <= a.(Args.subtolerance) ->
    (1 <= a.(Args.miniter) <= a.(Args.maxiter))%Z ->
    (a.(Args.submaxiter) < a.(Args.subminiter))%Z ->
    SPIRALTAP Qlog Qsqrt toc Py2 fuel a = Raise NameError.
Proof.
  intros fuel a Hn Hp Hv Hl Ht Hs Hm Hsub. unfold SPIRALTAP.
  assert (Hin : exists am, input_parameters Py2 a = Ok am).
  { unfold input_parameters. simpl. destruct (negb _); eauto. }
  destruct Hin as [am ->]. simpl.
  assert (Hc : check_inputs a = Raise NameError); [|rewrite Hc; reflexivity].
  unfold check_inputs.
  replace (negb (String.eqb (lower a.(Args.noisetype)) "poisson"
                 || String.eqb (lower a.(Args.noisetype)) "gaussian"))
    with false.
  2:{ symmetry. apply negb_false_iff, orb_true_iff.
      destruct Hn as [->| ->]; [left|right]; reflexivity. }
  replace (negb (String.eqb (lower a.(Args.penalty)) "canonical"
                 || String.eqb (lower a.(Args.penalty)) "onb"
                 || String.eqb (lower a.(Args.penalty)) "rdp"
                 || String.eqb (lower a.(Args.penalty)) "rdp-ti"
                 || String.eqb (lower a.(Args.penalty)) "tv"))
    with false.
  2:{ symmetry. apply negb_false_iff. simpl in Hp.
      destruct Hp as [<-|[<-|[<-|[<-|[<-|[]]]]]]; reflexivity. }
  replace (a.(Args.verbose) <? 0)%Z with false by (symmetry; apply Z.ltb_ge; lia).
  apply Qltb_ge in Hl, Ht, Hs. rewrite Hl, Ht, Hs.
  replace ((a.(Args.miniter) <=? 0) || (a.(Args.maxiter) <=? 0))%Z with false.
  2:{ symmetry. apply orb_false_iff. split; apply Z.leb_gt; lia. }
  replace (a.(Args.maxiter) <? a.(Args.miniter))%Z with false
    by (symmetry; apply Z.ltb_ge; lia).
  replace (a.(Args.submaxiter) <? a.(Args.subminiter))%Z with true
    by (symmetry; apply Z.ltb_lt; lia).
  reflexivity.
Qed.

(** X10.  For Poisson noise the data must be counts: when [y] has an
    entry that is negative or not an integer, the method-dependent
    initialisation raises [ValueError], and so does the call under Python 2
    once the checks before it have passed; for Gaussian noise [y] is not
    inspected. *)
Theorem method_parameters_counts :
  forall (a : Args.t),
    (lower a.(Args.noisetype) = "poisson"%string ->
     (exists q, In q a.(Args.y) /\ (q < 0 \/ ~ exists z, q == inject_Z z)) ->
     method_parameters Qsqrt a = Raise ValueError
     /\ forall fuel AT,
          check_inputs a = Ok AT ->
          SPIRALTAP Qlog Qsqrt toc Py2 fuel a = Raise ValueError)
    /\ (lower a.(Args.noisetype) = "gaussian"%string ->
        lower a.(Args.penalty) = "canonical"%string ->
        method_parameters Qsqrt a = Ok []).
Proof.
  intros a. split.
  - intros Hp (q & Hin & Hq).
    assert (Hmp : method_parameters Qsqrt a = Raise ValueError).
    { unfold method_parameters. rewrite Hp. simpl.
      destruct (existsb _ a.(Args.y)) eqn:E; [reflexivity|].
      assert (Hall : forall p, In p a.(Args.y) -> exists z, p == inject_Z z).
      { intros p Hp'. apply Qround_even_fixed.
        destruct (Qeq_bool (Qround_even p) p) eqn:F; [reflexivity|].
        assert (existsb (fun q0 => negb (Qeq_bool (Qround_even q0) q0))
                  a.(Args.y) = true); [|congruence].
        apply existsb_exists. exists p. rewrite F. auto. }
      destruct Hq as [Hq|Hq]; [|exfalso; apply Hq; apply Hall; exact Hin].
      destruct (vmin_nonempty a.(Args.y)) as [m Hm].
      { intros E0. rewrite E0 in Hin. exact Hin. }
      rewrite Hm. simpl.
      apply vmin_spec in Hm. rewrite Forall_forall in Hm.
      assert (Hlt : Qltb m 0 = true).
      { apply Qltb_lt. apply Qle_lt_trans with q; [apply Hm; exact Hin|exact Hq]. }
      rewrite Hlt. reflexivity. }
    split; [exact Hmp|].
    intros fuel AT Hc. unfold SPIRALTAP, input_parameters. simpl.
    destruct (negb _); simpl; rewrite Hc; simpl; rewrite Hmp; reflexivity.
  - intros Hg Hc. unfold method_parameters. rewrite Hg, Hc. reflexivity.
Qed.

(** X11.  [computegrad] is silent about an unknown noise model: it returns
    [None] exactly when [noisetype] is neither name (in any letter case),
    and then whatever the shapes of its arguments are. *)
Theorem computegrad_unknown_noise :
  forall (y Ax : vec) (AT : vec -> vec) (noisetype : string) (logepsilon : Q),
    computegrad y Ax AT noisetype logepsilon = Ok None
    <-> (lower noisetype <> "poisson"%string
         /\ lower noisetype <> "gaussian"%string).
Proof.
  intros y Ax AT noisetype logepsilon. unfold computegrad.
  destruct (String.eqb_spec (lower noisetype) "poisson") as [E1|E1].
  - split; [|intros [H _]; contradiction].
    destruct (divide y _); simpl; discriminate.
  - destruct (String.eqb_spec (lower noisetype) "gaussian") as [E2|E2].
    + split; [|intros [_ H]; contradiction].
      destruct (broadcast Qminus Ax y); simpl; discriminate.
    + split; [intros _; split; assumption|reflexivity].
Qed.

(** X12.  The Gaussian objective is a sum of squares: never negative. *)
Theorem computeobjective_gaussian_nonneg :
  forall (x y Ax : vec) (tau : operand) (noisetype : string) (logepsilon : Q)
         (penalty : string) (WT : vec -> vec) (o : Q),
    lower noisetype = "gaussian"%string ->
    computeobjective Qlog x y Ax tau noisetype logepsilon penalty WT = Ok o ->
    0 <= o.
Proof.
  intros x y Ax tau noisetype logepsilon penalty WT o Hg.
  rewrite computeobjective_eq. rewrite Hg. simpl.
  intros H. inv_bind H. injection H as <-.
  assert (Hs : 0 <= vsum (map sq u)).
  { clear. induction u as [|q u IH]; simpl; [apply Qle_refl|].
    pose proof (Qsqr_nonneg q) as Hq. fold (sq q) in Hq.
    rewrite <- (Qplus_0_l 0). apply Qplus_le_compat; assumption. }
  unfold Qdiv. rewrite <- (Qmult_0_l (/ 2)).
  apply Qmult_le_compat_r; [exact Hs|discriminate].
Qed.

End Checks.

Section Loop.

Variable Qlog : Q -> Q.
Variable Qsqrt : Q -> Q.
Variable toc : Z -> Q.

Lemma compute_solution_Ax (fuel : nat) (a : Args.t) (am : option Q) (s : St.t)
    (sol : Sol.t) :
  (a.(Args.alphamethod) = 0 \/ a.(Args.alphamethod) = 1)%Z ->
  compute_solution Qlog fuel a am s = Ok sol ->
  sol.(Sol.Ax) = a.(Args.A) sol.(Sol.x).
Proof.
  intros [Hm|Hm] H.
  - unfold compute_solution in H. rewrite Hm in H. simpl in H.
    inv_bind H. inv_bind H. inv_bind H. inv_bind H. injection H as <-.
    reflexivity.
  - destruct (compute_solution_bb _ _ _ _ _ _ Hm H) as (dx & Adx & _ & _ & E & _).
    exact E.
Qed.

(** X13.  The forward prediction is a cache: wherever the loop passes, [Ax]
    is [A(x)], and the "previous" slots hold the current values. *)
Theorem forward_cache :
  forall (rounds : nat) (a : Args.t) (AT : vec -> vec) (am : option Q)
         (sqrty : vec) (s0 s : St.t),
    initialize Qlog Qsqrt a AT = Ok s0 ->
    reaches Qlog Qsqrt toc rounds a AT am sqrty s0 s ->
    s.(St.Ax) = a.(Args.A) s.(St.x)
    /\ s.(St.xprevious) = s.(St.x)
    /\ s.(St.Axprevious) = s.(St.Ax).
Proof.
  intros rounds a AT am sqrty s0 s Hi R.
  apply (reaches_invariant Qlog Qsqrt toc
           (fun s => s.(St.Ax) = a.(Args.A) s.(St.x)
                     /\ s.(St.xprevious) = s.(St.x)
                     /\ s.(St.Axprevious) = s.(St.Ax))
           rounds a AT am sqrty) with (s := s0); [|exact R|].
  - intros t t' _ _ Ht.
    pose proof (iteration_configuration _ _ _ _ _ _ _ _ _ _ Ht) as (Hm & _).
    apply iteration_Ok in Ht.
    destruct Ht as (sol & Hsol & _ & Hx & HAx & Hxp & HAxp & _).
    apply compute_solution_Ax in Hsol; [|exact Hm].
    rewrite Hx, HAx, Hxp, HAxp. auto.
  - apply initialize_Ok in Hi. cbv zeta in Hi.
    destruct Hi as (_ & _ & Hx & Hxp & HAx & HAxp & _).
    rewrite Hx, Hxp, HAx, HAxp. auto.
Qed.

Lemma getitem_some_entry (v : vec) (i : Z) (q : Q) :
  getitem v i = Ok q -> exists k, q = nth k v 0.
Proof.
  unfold getitem. destruct (index _ _) as [k|]; [|discriminate].
  intros [= <-]. eauto.
Qed.

(** X14.  The elapsed-time criterion reads [cputime[itern]], which is
    written only when [savecputime] is set.  With criterion 2, a positive
    [tolerance] and [savecputime = False] the check never fires, and a run
    whose counter starts at most at [miniter] uses the whole budget. *)
Theorem elapsed_time_needs_cputime :
  forall (version : python) (fuel : nat) (a : Args.t) (x : vec) (out : Out.t),
    a.(Args.stopcriterion) = 2%Z ->
    a.(Args.savecputime) = false ->
    0 < a.(Args.tolerance) ->
    (a.(Args.itern) <= a.(Args.miniter))%Z ->
    SPIRALTAP Qlog Qsqrt toc version fuel a = Ok (x, out) ->
    out.(Out.iterations) = a.(Args.maxiter).
Proof.
  intros version fuel a x out Hsc Hsave Htol Hstart H.
  apply SPIRALTAP_Ok in H.
  destruct H as (am & AT & sqrty & s0 & sf & _ & Hc & _ & Hi & Hl & Hp).
  apply check_inputs_bounds in Hc.
  apply initialize_Ok in Hi.
  destruct Hi as (Hi & _ & _ & _ & _ & _ & _ & _ & _ & Hz & _).
  pose proof (main_loop_reaches _ _ _ _ _ _ _ _ _ _ _ Hl) as [R _].
  destruct (reaches_itern _ _ _ _ _ _ _ _ _ _ (proj2 Hc) R) as [_ Hub].
  apply main_loop_last in Hl; [|lia].
  destruct Hl as (s & Rs & Hs & _ & G).
  assert (Hzero : forall k, nth k s.(St.cputime) 0 = 0).
  { apply (reaches_invariant Qlog Qsqrt toc
             (fun t => forall k, nth k t.(St.cputime) 0 = 0)
             fuel a AT am sqrty) with (s := s0); [|exact Rs|exact Hz].
    intros t t' Ht _ Hit. apply iteration_Ok in Hit.
    destruct Hit as (sol & _ & _ & _ & _ & _ & _ & _ & _ & Hcpu & _).
    rewrite Hsave in Hcpu. injection Hcpu as <-. exact Ht. }
  apply iteration_Ok in Hs.
  destruct Hs as (sol & _ & _ & _ & _ & _ & _ & _ & _ & Hcpu & _ & _ & _
                  & (dx & now & _ & Hnow & Hconv)).
  rewrite Hsave in Hcpu. injection Hcpu as Hcpu. rewrite <- Hcpu in Hnow.
  apply getitem_some_entry in Hnow. destruct Hnow as [k ->].
  rewrite Hzero in Hconv.
  unfold checkconvergence in Hconv. rewrite Hsc in Hconv.
  assert (Hf : sf.(St.converged) = false).
  { destruct (a.(Args.miniter) <=? s.(St.itern))%Z; simpl in Hconv;
      injection Hconv as <-; [|reflexivity].
    destruct (Qle_bool a.(Args.tolerance) 0) eqn:E; [|reflexivity].
    apply Qle_bool_iff in E. exfalso. apply (Qlt_not_le _ _ Htol E). }
  apply guard_false in G. destruct G as [_ [G|G]]; [|congruence].
  apply post_process_Ok in Hp. destruct Hp as (_ & Hit & _).
  assert (Hub' : (sf.(St.itern) <= a.(Args.maxiter) + 1)%Z) by (apply Hub; lia).
  lia.
Qed.

(** X15.  With the default [saveobjective = False] nothing stores the
    objective of the initializer, so the first acceptance test compares
    with 0.  For Gaussian noise, where the objective is a sum of squares, a
    round of the first iteration is then accepted only by force
    ([alpha >= acceptalphamax]) or when its candidate fits the data
    exactly. *)
Theorem first_iteration_acceptance :
  forall (a : Args.t) (AT : vec -> vec) (am : Q) (s0 : St.t) (alpha : Q)
         (obj : vec) (sol : Sol.t),
    a.(Args.saveobjective) = false ->
    a.(Args.itern) = 1%Z ->
    (0 <= a.(Args.acceptpast))%Z ->
    lower a.(Args.noisetype) = "gaussian"%string ->
    0 <= a.(Args.acceptdecrease) -> 0 <= alpha ->
    check_inputs a = Ok AT ->
    initialize Qlog Qsqrt a AT = Ok s0 ->
    maxpast s0.(St.objective) s0.(St.itern) a.(Args.acceptpast) = Ok 0
    /\ (backtracking_round Qlog a (Some am) s0 0 alpha obj = Ok (true, sol) ->
        am <= alpha
        \/ exists cand,
             computeobjective Qlog sol.(Sol.x) a.(Args.y) sol.(Sol.Ax)
               a.(Args.tau) a.(Args.noisetype) a.(Args.logepsilon)
               a.(Args.penalty) a.(Args.WT) = Ok cand
             /\ cand == 0).
Proof.
  intros a AT am s0 alpha obj sol Hsave H1 Hpast Hg Hdec Halpha Hc Hi.
  apply check_inputs_bounds in Hc.
  apply initialize_Ok in Hi. cbv zeta in Hi.
  destruct Hi as (Hi & _ & _ & _ & _ & _ & _ & Lo & _ & _ & Ho & _).
  rewrite Hsave in Ho. split.
  - unfold maxpast. rewrite Hi, H1, past_first by exact Hpast.
    simpl. unfold getitem. rewrite index_nonneg by (rewrite Lo; lia).
    simpl. rewrite Ho. reflexivity.
  - intros Hr. apply backtracking_round_Ok in Hr.
    destruct Hr as (g & step & dx & Adx & cand & _ & _ & _ & _ & _ & _ & Hcand
                    & _ & Hacc & _).
    apply accepted_iff in Hacc. destruct Hacc as [Hacc _].
    destruct (Hacc eq_refl) as [Hle|Hle]; [right|left; exact Hle].
    exists cand. split; [exact Hcand|].
    assert (Hn : 0 <= cand).
    { rewrite computeobjective_eq, Hg in Hcand. simpl in Hcand.
      inv_bind Hcand. injection Hcand as <-.
      assert (Hs : 0 <= vsum (map sq u)).
      { clear. induction u as [|q u IH]; simpl; [apply Qle_refl|].
        pose proof (Qsqr_nonneg q) as Hq. fold (sq q) in Hq.
        rewrite <- (Qplus_0_l 0). apply Qplus_le_compat; assumption. }
      unfold Qdiv. rewrite <- (Qmult_0_l (/ 2)).
      apply Qmult_le_compat_r; [exact Hs|discriminate]. }
    assert (Ht : 0 <= a.(Args.acceptdecrease) * alpha / 2 * vsum (map sq dx)).
    { assert (Hs : 0 <= vsum (map sq dx)).
      { clear. induction dx as [|q u IH]; simpl; [apply Qle_refl|].
        pose proof (Qsqr_nonneg q) as Hq. fold (sq q) in Hq.
        rewrite <- (Qplus_0_l 0). apply Qplus_le_compat; assumption. }
      apply Qmult_le_0_compat; [|exact Hs].
      unfold Qdiv. apply Qmult_le_0_compat; [|discriminate].
      apply Qmult_le_0_compat; assumption. }
    apply Qle_antisym; [|exact Hn].
    apply Qle_trans with (0 - a.(Args.acceptdecrease) * alpha / 2
                              * vsum (map sq dx)); [exact Hle|].
    lra.
Qed.

(** X16.  The errors of the convergence check: it raises
    [NotImplementedError] exactly for the criteria 5 and 6 once
    [itern >= miniter], and an [IndexError] can only come from criterion 4
    reading the objective trace. *)
Theorem checkconvergence_raises :
  forall (itern miniter stopcriterion : Z) (tolerance : Q) (dx x : vec)
         (cputime : Q) (objective : vec) (e : exn),
    checkconvergence itern miniter stopcriterion tolerance dx x cputime
      objective = Raise e ->
    (miniter <= itern)%Z
    /\ ((e = NotImplementedError
         /\ (stopcriterion = 5 \/ stopcriterion = 6)%Z)
        \/ (e = IndexError /\ stopcriterion = 4%Z
            /\ (index (length objective) itern = None
                \/ index (length objective) (itern - 1) = None))).
Proof.
  intros itern miniter sc tol dx x cputime objective e.
  unfold checkconvergence.
  destruct (Z.leb_spec miniter itern) as [Hle|Hlt]; [|discriminate].
  intros H. split; [assumption|].
  destruct (Z.eqb_spec sc 1) as [E1|E1]; [discriminate|].
  destruct (Z.eqb_spec sc 2) as [E2|E2]; [discriminate|].
  destruct (Z.eqb_spec sc 3) as [E3|E3];
    [destruct (Qeq_bool _ _); discriminate|].
  destruct (Z.eqb_spec sc 4) as [E4|E4].
  - right. unfold getitem in H.
    destruct (index (length objective) itern); simpl in H.
    + destruct (index (length objective) (itern - 1)); simpl in H;
        [destruct (Qeq_bool _ _); discriminate|]. injection H as <-. auto.
    + injection H as <-. auto.
  - destruct (Z.eqb_spec sc 5) as [E5|E5]; [injection H as <-; auto|].
    destruct (Z.eqb_spec sc 6) as [E6|E6]; [injection H as <-; auto|].
    discriminate.
Qed.

End Loop.

(** ** Total variation *)

Lemma vsum_abs_nonneg (v : vec) : 0 <= vsum (map Qabs v).
Proof.
  induction v as [|q v IH]; simpl; [apply Qle_refl|].
  rewrite <- (Qplus_0_l 0). apply Qplus_le_compat; [apply Qabs_nonneg|exact IH].
Qed.

Lemma vsum_rows_abs_nonneg (P : list vec) :
  0 <= vsum (map (fun row => vsum (map Qabs row)) P).
Proof.
  induction P as [|row P IH]; simpl; [apply Qle_refl|].
  rewrite <- (Qplus_0_l 0).
  apply Qplus_le_compat; [apply vsum_abs_nonneg|exact IH].
Qed.

Lemma vsum_rows_abs_zero (P : list vec) :
  Forall (Forall (fun q => q == 0)) P ->
  vsum (map (fun row => vsum (map Qabs row)) P) == 0.
Proof.
  induction 1 as [|row P Hrow _ IH]; simpl; [reflexivity|].
  rewrite IH. rewrite Qplus_0_r. apply vsum_zero.
  induction Hrow as [|q row Hq _ IHrow]; simpl; constructor; auto.
  rewrite Hq. reflexivity.
Qed.

Lemma map2_minus_repeat (c : Q) (n m : nat) :
  Forall (fun q => q == 0) (map2 Qminus (repeat c n) (repeat c m)).
Proof.
  revert m. induction n as [|n IH]; intros [|m]; simpl; constructor; auto.
  unfold Qminus. apply Qplus_opp_r.
Qed.

Lemma removelast_repeat {T : Type} (c : T) (n : nat) :
  removelast (repeat c n) = repeat c (n - 1).
Proof.
  induction n as [|n IH]; simpl; [reflexivity|].
  destruct n as [|n]; [reflexivity|].
  simpl in *. rewrite IH. rewrite Nat.sub_0_r. reflexivity.
Qed.

Section TotalVariation.

Variable Qsqrt : Q -> Q.

Lemma tlv_image_l1_eq (X : list vec) :
  X <> [] ->
  tlv_image Qsqrt X "l1"
  = Ok (vsum (map (fun row => vsum (map Qabs row))
                (rows_sub (removelast X) (tl X)))
        + vsum (map (fun row => vsum (map Qabs row))
                  (map (fun row => map2 Qminus (removelast row) (tl row)) X))).
Proof.
  destruct X as [|row0 X']; [congruence|]. intros _. reflexivity.
Qed.

(** X17.  The anisotropic total variation ([typ = 'l1']) of an image is
    never negative and vanishes on a constant image; a [typ] other than
    ['iso'] and ['l1'] raises [NameError], because the exception class
    [InputError] that the source means to raise is not defined. *)
Theorem tlv_image_l1 :
  forall (X : list vec) (typ : string),
    X <> [] ->
    (forall t, tlv_image Qsqrt X "l1" = Ok t -> 0 <= t)
    /\ (forall c m n,
           X = repeat (repeat c n) m ->
           exists t, tlv_image Qsqrt X "l1" = Ok t /\ t == 0)
    /\ (typ <> "iso"%string -> typ <> "l1"%string ->
        tlv_image Qsqrt X typ = Raise NameError).
Proof.
  intros X typ HX. repeat split.
  - intros t. rewrite tlv_image_l1_eq by exact HX. intros [= <-].
    rewrite <- (Qplus_0_l 0).
    apply Qplus_le_compat; apply vsum_rows_abs_nonneg.
  - intros c m n E. rewrite tlv_image_l1_eq by exact HX.
    eexists. split; [reflexivity|].
    rewrite E. clear E HX.
    rewrite !vsum_rows_abs_zero; [reflexivity| |].
    + apply Forall_forall. intros row Hrow. apply in_map_iff in Hrow.
      destruct Hrow as (r & <- & Hr). apply repeat_spec in Hr. subst r.
      rewrite removelast_repeat.
      destruct n as [|n]; simpl; [constructor|].
      rewrite Nat.sub_0_r. apply map2_minus_repeat.
    + unfold rows_sub. apply Forall_forall. intros row Hrow.
      apply in_map_iff in Hrow. destruct Hrow as ([r1 r2] & <- & Hr).
      simpl. apply in_combine_l in Hr as H1. apply in_combine_r in Hr as H2.
      rewrite removelast_repeat in H1. apply repeat_spec in H1. subst r1.
      destruct m as [|m]; [destruct H2|].
      simpl in H2. apply repeat_spec in H2. subst r2.
      apply map2_minus_repeat.
  - intros H1 H2. destruct X as [|row0 X']; [congruence|]. unfold tlv_image.
    destruct (String.eqb_spec typ "iso"); [contradiction|].
    destruct (String.eqb_spec typ "l1"); [contradiction|].
    reflexivity.
Qed.

End TotalVariation.

(** * Concrete runs for the further properties *)

Lemma SPIRALTAP_returns_only_if_witness :
  lower pixel_a.(Args.penalty) = "canonical"%string
  /\ pixel_a.(Args.stopcriterion) <> 5%Z.
Proof.
  assert (H : exists r, SPIRALTAP no_log no_sqrt ticks Py2 5 pixel_a = Ok r)
    by (eexists; vm_compute; reflexivity).
  destruct H as [r H].
  assert (H0 : (pixel_a.(Args.itern) <= pixel_a.(Args.miniter))%Z)
    by (vm_compute; discriminate).
  destruct (SPIRALTAP_returns_only_if no_log no_sqrt ticks Py2 5 pixel_a r H0 H)
    as (_ & _ & Hp & _ & _ & _ & H5 & _).
  split; assumption.
Defined.

Lemma SPIRALTAP_signal_lower_bound_witness :
  exists x out,
    SPIRALTAP no_log no_sqrt ticks Py2 5 pixel_a = Ok (x, out)
    /\ Forall (fun q => pixel_a.(Args.mu) <= q) x.
Proof.
  assert (H : exists x out,
             SPIRALTAP no_log no_sqrt ticks Py2 5 pixel_a = Ok (x, out))
    by (eexists; eexists; vm_compute; reflexivity).
  destruct H as (x & out & H). exists x, out. split; [exact H|].
  apply (SPIRALTAP_signal_lower_bound no_log no_sqrt ticks Py2 5 pixel_a x out);
    [vm_compute; discriminate|exact H].
Defined.

Lemma SPIRALTAP_exhausts_budget_witness :
  exists x out,
    SPIRALTAP no_log no_sqrt ticks Py2 5 pixel_a = Ok (x, out)
    /\ out.(Out.iterations) = 2%Z.
Proof.
  assert (H : exists x out,
             SPIRALTAP no_log no_sqrt ticks Py2 5 pixel_a = Ok (x, out))
    by (eexists; eexists; vm_compute; reflexivity).
  destruct H as (x & out & H). exists x, out. split; [exact H|].
  apply (SPIRALTAP_exhausts_budget no_log no_sqrt ticks Py2 5 pixel_a x out);
    [reflexivity|vm_compute; discriminate|exact H].
Defined.

Lemma iteration_step_size_witness :
  pixel_a.(Args.alphamin) <= pixel_a1.(St.alpha) <= pixel_a.(Args.alphamax).
Proof.
  assert (H : iteration no_log no_sqrt ticks 5 pixel_a (fun v => v) (Some 4) []
                pixel_a0 = Ok pixel_a1) by (vm_compute; reflexivity).
  apply (iteration_step_size no_log no_sqrt ticks 5 pixel_a (fun v => v)
           (Some 4) [] pixel_a0 pixel_a1 H);
    [reflexivity|vm_compute; discriminate].
Defined.


Lemma acceptalphamax_keyword_unbound_witness :
  input_parameters Py2
    (scenario [1] "Gaussian" 1 (1 # 10) 1 50 [("acceptalphamax"%string, 4)])
  = Ok None.
Proof.
  apply (acceptalphamax_keyword_unbound no_log 0
           (scenario [1] "Gaussian" 1 (1 # 10) 1 50
              [("acceptalphamax"%string, 4)])
           pixel_b0 0 1 []).
  reflexivity.
Defined.

Lemma SPIRALTAP_terminates_witness :
  finishes (SPIRALTAP no_log no_sqrt ticks Py2 103 pixel_a).
Proof.
  apply (SPIRALTAP_terminates no_log no_sqrt ticks Py2 103 102 pixel_a
           (1 # 10 ^ 30)).
  - vm_compute; discriminate.
  - vm_compute; discriminate.
  - vm_compute; discriminate.
  - vm_compute; discriminate.
  - vm_compute; discriminate.
  - apply le_n.
  - vm_compute; discriminate.
Defined.

Lemma SPIRALTAP_rejects_configuration_witness :
  SPIRALTAP no_log no_sqrt ticks Py2 5 (pixel 1 10 5 10 1 1 (1 # 2) false false)
  = Raise TypeError.
Proof.
  apply (SPIRALTAP_rejects_configuration no_log no_sqrt ticks 5
           (pixel 1 10 5 10 1 1 (1 # 2) false false)).
  do 8 right. vm_compute. reflexivity.
Defined.

Lemma SPIRALTAP_subiteration_bounds_witness :
  SPIRALTAP no_log no_sqrt ticks Py2 5 (scenario [1] "Gaussian" 1 (1 # 10) 9 3 [])
  = Raise NameError.
Proof.
  apply (SPIRALTAP_subiteration_bounds no_log no_sqrt ticks 5
           (scenario [1] "Gaussian" 1 (1 # 10) 9 3 [])).
  - right. reflexivity.
  - left. reflexivity.
  - vm_compute; discriminate.
  - vm_compute; discriminate.
  - vm_compute; discriminate.
  - vm_compute; discriminate.
  - split; vm_compute; discriminate.
  - vm_compute. reflexivity.
Defined.

Lemma method_parameters_counts_witness :
  SPIRALTAP no_log no_sqrt ticks Py2 5
    (scenario [-1] "Poisson" 1 (1 # 10) 1 50 []) = Raise ValueError
  /\ method_parameters no_sqrt (scenario [1 # 2] "Gaussian" 1 (1 # 10) 1 50 [])
     = Ok [].
Proof.
  split.
  - apply (method_parameters_counts no_log no_sqrt ticks
             (scenario [-1] "Poisson" 1 (1 # 10) 1 50 []))
      with (AT := fun v : vec => v).
    + reflexivity.
    + exists (-1). split; [left; reflexivity|]. left. vm_compute. reflexivity.
    + vm_compute. reflexivity.
  - apply (method_parameters_counts no_log no_sqrt ticks
             (scenario [1 # 2] "Gaussian" 1 (1 # 10) 1 50 [])); reflexivity.
Defined.

Lemma computegrad_unknown_noise_witness :
  computegrad [1] [1; 2; 3] (fun v => v) "Laplace" 0 = Ok None.
Proof.
  apply (computegrad_unknown_noise [1] [1; 2; 3] (fun v => v) "Laplace" 0).
  split; discriminate.
Defined.

Lemma computeobjective_gaussian_nonneg_witness :
  exists o,
    computeobjective no_log [0] [1] [0] (Scalar 1) "Gaussian" 0 "canonical"
      (fun v => v) = Ok o
    /\ 0 <= o.
Proof.
  assert (H : exists o,
             computeobjective no_log [0] [1] [0] (Scalar 1) "Gaussian" 0
               "canonical" (fun v => v) = Ok o)
    by (eexists; vm_compute; reflexivity).
  destruct H as [o H]. exists o. split; [exact H|].
  apply (computeobjective_gaussian_nonneg no_log [0] [1] [0] (Scalar 1)
           "Gaussian" 0 "canonical" (fun v => v) o); [reflexivity|exact H].
Defined.

Lemma forward_cache_witness :
  pixel_a1.(St.Ax) = pixel_a.(Args.A) pixel_a1.(St.x)
  /\ pixel_a1.(St.xprevious) = pixel_a1.(St.x)
  /\ pixel_a1.(St.Axprevious) = pixel_a1.(St.Ax).
Proof.
  apply (forward_cache no_log no_sqrt ticks 5 pixel_a (fun v => v) (Some 4) []
           pixel_a0 pixel_a1).
  - vm_compute. reflexivity.
  - apply reaches_next with (s' := pixel_a1).
    + vm_compute. reflexivity.
    + vm_compute. reflexivity.
    + apply reaches_here.
Defined.

Lemma elapsed_time_needs_cputime_witness :
  exists x out,
    SPIRALTAP no_log no_sqrt ticks Py2 5
      (scenario [1] "Gaussian" 2 (1 # 10) 1 50 []) = Ok (x, out)
    /\ out.(Out.iterations) = 2%Z.
Proof.
  assert (H : exists x out,
             SPIRALTAP no_log no_sqrt ticks Py2 5
               (scenario [1] "Gaussian" 2 (1 # 10) 1 50 []) = Ok (x, out))
    by (eexists; eexists; vm_compute; reflexivity).
  destruct H as (x & out & H). exists x, out. split; [exact H|].
  apply (elapsed_time_needs_cputime no_log no_sqrt ticks Py2 5
           (scenario [1] "Gaussian" 2 (1 # 10) 1 50 []) x out);
    [reflexivity|reflexivity|vm_compute; reflexivity|vm_compute; discriminate
    |exact H].
Defined.

Lemma first_iteration_acceptance_witness :
  maxpast pixel_b0.(St.objective) pixel_b0.(St.itern) pixel_b.(Args.acceptpast)
  = Ok 0.
Proof.
  apply (first_iteration_acceptance no_log no_sqrt pixel_b (fun v => v) 1
           pixel_b0 1 [] (Sol.mk [] [] None None None 0 [])).
  - reflexivity.
  - reflexivity.
  - vm_compute; discriminate.
  - reflexivity.
  - vm_compute; discriminate.
  - vm_compute; discriminate.
  - vm_compute. reflexivity.
  - vm_compute. reflexivity.
Defined.

Lemma checkconvergence_raises_witness :
  (5 <= 7)%Z
  /\ ((NotImplementedError = NotImplementedError /\ (5 = 5 \/ 5 = 6)%Z)
      \/ (NotImplementedError = IndexError /\ 5%Z = 4%Z
          /\ (index (length [0; 0]) 7 = None
              \/ index (length [0; 0]) (7 - 1) = None))).
Proof.
  apply (checkconvergence_raises 7 5 5 (1 # 10) [1] [1] 0 [0; 0]
           NotImplementedError).
  reflexivity.
Defined.

Lemma tlv_image_l1_witness :
  exists t, tlv_image no_sqrt [[3; 3]; [3; 3]] "l1" = Ok t /\ t == 0.
Proof.
  assert (H : [[3; 3]; [3; 3]] <> ([] : list vec)) by discriminate.
  destruct (tlv_image_l1 no_sqrt [[3; 3]; [3; 3]] "l1" H) as (_ & Hc & _).
  apply (Hc 3 2%nat 2%nat). reflexivity.
Defined.
